(** * Router: bounded route stack and confirmed route transitions

    A shallow embedding of [src/router/Router.ts].  The class keeps the
    current route in an effect handler, a bounded history of routes, and
    a list of confirmation handlers that vote on every route change.

    Conventions of the embedding:
    - a JavaScript array that is shared by reference lives in a store of
      arrays and is named by its index there, so that
      [this.currentTransition = this.ConfirmTransitions] shares one array;
    - an [async] method returns an [Outcome]: the promise it hands back is
      fulfilled, rejected, or still waiting for the votes of the handlers;
    - a handler is client code: what it does with the capabilities it
      receives is a later call of [confirm] or [cancel], or, for the
      methods named [...With], an act in its own body;
    - the only loop of the class takes fuel, and [None] means that the
      fuel ran out. *)

From Stdlib Require Import ZArith Lia.
From stdpp Require Import base option list strings.

Local Open Scope string_scope.
Local Open Scope list_scope.
Local Open Scope Z_scope.

(** ** Values *)

(** A route is an object compared by identity; [routeStack.pop()] and the
    initial [get()] also produce [undefined]. *)
Inductive Route :=
| undefined
| route (id : nat).

#[global] Instance Route_eq_dec : EqDecision Route.
Proof. solve_decision. Defined.

(** [a === b] *)
Definition strict_eq (a b : Route) : bool := bool_decide (a = b).

(** A confirmation handler is a function value; only its identity is
    inspected ([k !== effect], [indexOf]). *)
Definition ConfirmTransition := nat.

Inductive Error :=
| mkError (message : string)
| TypeError (message : string).

Definition in_progress : Error :=
  mkError "Another route transition is in progress".
Definition was_cancelled : Error :=
  mkError "Route transition was cancelled".
Definition this_is_undefined : Error :=
  TypeError "Cannot read properties of undefined (reading 'currentTransition')".
Definition indexof_is_not_a_function : Error :=
  TypeError "this.currentTransition.indexof is not a function".

(** ** The effect handler *)

(** Modelled from the spec: the class [EffectHandler] of
    [src/EffectHandler], which is not part of the sources at hand.  It is a
    single-value broadcast: [fire] hands the new value to the subscribers
    and [get] returns the last fired value, or the initial default.  The
    notifications are kept as a trace, oldest first. *)
Record EffectHandler := mkEffect {
  value : Route;
  fired : list Route
}.

Definition get (e : EffectHandler) : Route := value e.

Definition fire (r : Route) (e : EffectHandler) : EffectHandler :=
  {| value := r; fired := fired e ++ [r] |}.

(** ** The router and its store *)

Definition ref := nat.

Record Router := mkRouter {
  effect : EffectHandler;
  routeStack : list Route;              (* oldest first *)
  stackSize : Z;
  ConfirmTransitions : ref;
  currentTransition : option ref        (* [None] is [null] *)
}.

(** The promise made by a voting round. *)
Inductive Settlement :=
| Waiting
| Fulfilled
| Failed (e : Error).

Record Store := mkStore {
  this : Router;
  arrays : list (list ConfirmTransition);
  promises : list Settlement
}.

Definition set_effect (e : EffectHandler) (r : Router) : Router :=
  mkRouter e (routeStack r) (stackSize r) (ConfirmTransitions r)
           (currentTransition r).

Definition set_routeStack (s : list Route) (r : Router) : Router :=
  mkRouter (effect r) s (stackSize r) (ConfirmTransitions r)
           (currentTransition r).

Definition set_ConfirmTransitions (l : ref) (r : Router) : Router :=
  mkRouter (effect r) (routeStack r) (stackSize r) l (currentTransition r).

Definition set_currentTransition (c : option ref) (r : Router) : Router :=
  mkRouter (effect r) (routeStack r) (stackSize r) (ConfirmTransitions r) c.

Definition upd (f : Router -> Router) (σ : Store) : Store :=
  mkStore (f (this σ)) (arrays σ) (promises σ).

(** The array behind a reference. *)
Definition deref (σ : Store) (l : ref) : list ConfirmTransition :=
  default [] (arrays σ !! l).

(** A new array; the reference to it is its index in the store. *)
Definition alloc (a : list ConfirmTransition) (σ : Store) : ref * Store :=
  (length (arrays σ), mkStore (this σ) (arrays σ ++ [a]) (promises σ)).

(** [arr.splice(idx, 1)], in place. *)
Definition splice (l : ref) (idx : nat) (σ : Store) : Store :=
  mkStore (this σ) (<[l := delete idx (deref σ l)]> (arrays σ)) (promises σ).

(** [resolve()] and [reject(e)] settle a promise once; later calls are
    ignored. *)
Definition settle (p : nat) (s : Settlement) (σ : Store) : Store :=
  match promises σ !! p with
  | Some Waiting => mkStore (this σ) (arrays σ) (<[p := s]> (promises σ))
  | _ => σ
  end.

Definition resolve (p : nat) : Store -> Store := settle p Fulfilled.
Definition reject (p : nat) (e : Error) : Store -> Store := settle p (Failed e).

(** [new Router(mapUrl, stackSize)]: nothing fired yet, an empty history,
    an empty array of handlers, no transition. *)
Definition newRouter (stackSize : Z) : Store :=
  mkStore (mkRouter (mkEffect undefined []) [] stackSize 0%nat None) [[]] [].

(** [arr.indexOf(h)] *)
Fixpoint indexOf (arr : list ConfirmTransition) (h : ConfirmTransition) : Z :=
  match arr with
  | [] => -1
  | k :: rest =>
      if bool_decide (k = h) then 0
      else let i := indexOf rest h in if i <? 0 then -1 else i + 1
  end.

(** Looking a method up on an array: the methods the class asks for.  A
    name that is not a method yields nothing to call. *)
Definition Array_prototype (name : string)
  : option (list ConfirmTransition -> ConfirmTransition -> Z) :=
  if String.eqb name "indexOf" then Some indexOf else None.

(** ** Results of calls *)

(** A synchronous call returns or throws. *)
Inductive Completion :=
| Normal
| Throw (e : Error).

(** What a voting round hands to each handler: [route], and the two
    capabilities, which close over the operation and the promise. *)
Record Closure := mkClosure {
  cl_route : Route;
  cl_op : Route -> Store -> option Store;
  cl_promise : nat
}.

(** The promise returned by an [async] method.  [Voting cl invoked]: the
    promise waits; [forEach] has called the handlers [invoked], in this
    order, each with the capabilities of [cl], and each has returned.  A
    handler votes by calling a capability afterwards. *)
Inductive Outcome :=
| Resolved
| Rejected (e : Error)
| Voting (cl : Closure) (invoked : list ConfirmTransition).

(** ** The methods *)

(** [update]: the guard [!route === null] compares a boolean with [null]
    and never holds, so the warning is never printed; the route is fired
    in every case. *)
Definition update (r : Route) (σ : Store) : Store :=
  upd (fun t => set_effect (fire r (effect t)) t) σ.

Definition update_op (r : Route) (σ : Store) : option Store :=
  Some (update r σ).

(** [while (this.routeStack.length >= this.stackSize) this.routeStack.shift()] *)
Fixpoint shift_while (fuel : nat) (size : Z) (stack : list Route)
  : option (list Route) :=
  if Z.of_nat (length stack) >=? size then
    match fuel with
    | O => None
    | S fuel' => shift_while fuel' size (tail stack)
    end
  else Some stack.

(** The operation that [push] passes to [updateRoute]. *)
Definition push_op (fuel : nat) (r : Route) (σ : Store) : option Store :=
  stack ← shift_while fuel (stackSize (this σ)) (routeStack (this σ));
  let σ1 := upd (set_routeStack (stack ++ [get (effect (this σ))])) σ in
  Some (update r σ1).

(** [complete], declared with [function] inside [updateRoute]: its [this]
    is whatever the call supplies. *)
Inductive ThisBinding :=
| this_undefined
| this_router.

Definition complete (receiver : ThisBinding) (cl : Closure)
    (handler : option ConfirmTransition) (err : option Error) (σ : Store)
  : option (Completion * Store) :=
  match receiver with
  | this_undefined => Some (Throw this_is_undefined, σ)
  | this_router =>
      match currentTransition (this σ) with
      | None => Some (Normal, σ)
      | Some l =>
          match handler with
          | None =>
              let σ1 := upd (set_currentTransition None) σ in
              Some (Normal, reject (cl_promise cl) (default was_cancelled err) σ1)
          | Some h =>
              match Array_prototype "indexof" with
              | None => Some (Throw indexof_is_not_a_function, σ)
              | Some index_of =>
                  let idx := index_of (deref σ l) h in
                  if 0 <=? idx then
                    let σ1 := splice l (Z.to_nat idx) σ in
                    if (length (deref σ1 l) =? 0)%nat then
                      let σ2 := upd (set_currentTransition None) σ1 in
                      σ3 ← cl_op cl (cl_route cl) σ2;
                      Some (Normal, resolve (cl_promise cl) σ3)
                    else Some (Normal, σ1)
                  else Some (Normal, σ)
              end
          end
      end
  end.

(** The capabilities built for each handler.  Both call [complete] as a
    plain function, [complete(null, err)] and [complete(handler)], inside
    class code, which is strict: the call supplies no [this]. *)
Definition cancel (cl : Closure) (err : option Error) (σ : Store)
  : option (Completion * Store) :=
  complete this_undefined cl None err σ.

Definition confirm (cl : Closure) (handler : ConfirmTransition) (σ : Store)
  : option (Completion * Store) :=
  complete this_undefined cl (Some handler) None σ.

(** [updateRoute], for handlers that return when [forEach] calls them and
    vote afterwards; [updateRouteWith], further down, also has the
    handlers that vote or throw in their own body. *)
Definition updateRoute (r : Route) (op : Route -> Store -> option Store)
    (σ : Store) : option (Outcome * Store) :=
  match currentTransition (this σ) with
  | Some _ => Some (Rejected in_progress, σ)
  | None =>
      let handlers := deref σ (ConfirmTransitions (this σ)) in
      if (length handlers =? 0)%nat then
        σ1 ← op r σ; Some (Resolved, σ1)
      else
        let σ1 :=
          upd (set_currentTransition (Some (ConfirmTransitions (this σ)))) σ in
        let p := length (promises σ1) in
        let σ2 := mkStore (this σ1) (arrays σ1) (promises σ1 ++ [Waiting]) in
        Some (Voting (mkClosure r op p) handlers, σ2)
  end.

(** [pop] also reports [previousRoute], the value its promise carries. *)
Definition pop (σ : Store) : option (Route * Outcome * Store) :=
  let previousRoute := List.last (routeStack (this σ)) undefined in
  let σ1 := upd (set_routeStack (removelast (routeStack (this σ)))) σ in
  '(out, σ2) ← updateRoute previousRoute update_op σ1;
  Some (previousRoute, out, σ2).

Definition set (r : Route) (σ : Store) : option (Outcome * Store) :=
  let σ1 := upd (set_routeStack []) σ in
  if strict_eq (get (effect (this σ1))) r then
    Some (Resolved, upd (set_routeStack []) σ1)
  else updateRoute r update_op σ1.

Definition push (fuel : nat) (r : Route) (σ : Store)
  : option (Outcome * Store) :=
  if strict_eq (get (effect (this σ))) r then Some (Resolved, σ)
  else updateRoute r (push_op fuel) σ.

(** [registerConfirm] replaces the array of handlers by a longer copy; the
    function it returns replaces it by a filtered copy. *)
Definition registerConfirm (h : ConfirmTransition) (σ : Store) : Store :=
  let '(l, σ1) := alloc (deref σ (ConfirmTransitions (this σ)) ++ [h]) σ in
  upd (set_ConfirmTransitions l) σ1.

Definition unregisterConfirm (h : ConfirmTransition) (σ : Store) : Store :=
  let '(l, σ1) :=
    alloc (filter (fun k => k ≠ h) (deref σ (ConfirmTransitions (this σ)))) σ in
  upd (set_ConfirmTransitions l) σ1.

(** The handlers registered at the moment. *)
Definition registered (σ : Store) : list ConfirmTransition :=
  deref σ (ConfirmTransitions (this σ)).

(** The handlers whose vote the pending transition is waiting for. *)
Definition outstanding (σ : Store) : option (list ConfirmTransition) :=
  deref σ <$> currentTransition (this σ).

(** ** Calls, votes and runs *)

Inductive Call :=
| CallPush (r : Route)
| CallPop
| CallSet (r : Route).

Definition call (fuel : nat) (c : Call) (σ : Store) : option (Outcome * Store) :=
  match c with
  | CallPush r => push fuel r σ
  | CallPop => '(_, out, σ1) ← pop σ; Some (out, σ1)
  | CallSet r => set r σ
  end.

(** Does the call name the route that is displayed already?  [push] and
    [set] return early then. *)
Definition names_current (c : Call) (σ : Store) : bool :=
  match c with
  | CallPush r | CallSet r => strict_eq (get (effect (this σ))) r
  | CallPop => false
  end.

Inductive Vote :=
| VoteConfirm (h : ConfirmTransition)
| VoteCancel (reason : option Error).

Definition vote (cl : Closure) (v : Vote) (σ : Store)
  : option (Completion * Store) :=
  match v with
  | VoteConfirm h => confirm cl h σ
  | VoteCancel reason => cancel cl reason σ
  end.

(** The votes of a round, one after the other; a vote that throws does so
    in the handler that cast it. *)
Fixpoint votes (cl : Closure) (vs : list Vote) (σ : Store) : option Store :=
  match vs with
  | [] => Some σ
  | v :: rest => '(_, σ1) ← vote cl v σ; votes cl rest σ1
  end.

Fixpoint pushes (fuel : nat) (rs : list Route) (σ : Store) : option Store :=
  match rs with
  | [] => Some σ
  | r :: rest => '(_, σ1) ← push fuel r σ; pushes fuel rest σ1
  end.

(** The length of the history, as the loop of [push] reads it. *)
Definition depth (σ : Store) : Z := Z.of_nat (length (routeStack (this σ))).

(** What a push that commits leaves behind, given the history it kept. *)
Definition pushed (kept : list Route) (r : Route) (σ : Store) : Store :=
  update r (upd (set_routeStack (kept ++ [get (effect (this σ))])) σ).

(** ** Changing the route by url *)

(** [type UrlMapper = (url: string) => Route | null]; [None] is [null]. *)
Definition UrlMapper := string -> option Route.

(** The promise of [setUrl] and [pushUrl] carries the mapped route. *)
Inductive UrlOutcome :=
| UrlResolved (r : Route)
| UrlRejected (e : Error).

(** The url as a template literal prints it; [setUrl] and [pushUrl] also
    take [null]. *)
Definition print_url (url : option string) : string := default "null" url.

Definition no_mapping (url : option string) : Error :=
  mkError ("Router cannot handle url changes without a mapping. Trying to change url to "
           +:+ print_url url).

Definition not_found (url : option string) : Error :=
  mkError ("Route not found for " +:+ print_url url).

(** [updateUrl]: [mapUrl] is the read-only field set by the constructor,
    absent when the router was made without a mapper.  The operation is
    called and its promise is dropped: [updateUrl] does not wait for it
    and returns the mapped route. *)
Definition updateUrl (mapUrl : option UrlMapper) (url : option string)
    (op : Route -> Store -> option (Outcome * Store)) (σ : Store)
  : option (UrlOutcome * Store) :=
  match mapUrl with
  | None => Some (UrlRejected (no_mapping url), σ)
  | Some map_url =>
      match map_url (default "" url) with
      | Some (route id) =>
          '(_, σ1) ← op (route id) σ; Some (UrlResolved (route id), σ1)
      | Some undefined | None => Some (UrlRejected (not_found url), σ)
      end
  end.

Definition setUrl (mapUrl : option UrlMapper) (url : option string)
    (σ : Store) : option (UrlOutcome * Store) :=
  updateUrl mapUrl url set σ.

Definition pushUrl (fuel : nat) (mapUrl : option UrlMapper)
    (url : option string) (σ : Store) : option (UrlOutcome * Store) :=
  updateUrl mapUrl url (push fuel) σ.

(** ** The life of a router *)

(** Whatever the clients of a router can do to it: call a public method,
    register a handler, call the function that unregisters it, or call a
    capability received in a voting round. *)
Inductive Event :=
| EvCall (c : Call)
| EvSetUrl (url : option string)
| EvPushUrl (url : option string)
| EvRegister (h : ConfirmTransition)
| EvUnregister (h : ConfirmTransition)
| EvVote (cl : Closure) (v : Vote).

Definition step (fuel : nat) (mapUrl : option UrlMapper) (ev : Event)
    (σ : Store) : option Store :=
  match ev with
  | EvCall c => snd <$> call fuel c σ
  | EvSetUrl url => snd <$> setUrl mapUrl url σ
  | EvPushUrl url => snd <$> pushUrl fuel mapUrl url σ
  | EvRegister h => Some (registerConfirm h σ)
  | EvUnregister h => Some (unregisterConfirm h σ)
  | EvVote cl v => snd <$> vote cl v σ
  end.

Fixpoint run (fuel : nat) (mapUrl : option UrlMapper) (evs : list Event)
    (σ : Store) : option Store :=
  match evs with
  | [] => Some σ
  | ev :: rest => σ1 ← step fuel mapUrl ev σ; run fuel mapUrl rest σ1
  end.

(** The references of the router point into the store. *)
Definition well_formed (σ : Store) : Prop :=
  (ConfirmTransitions (this σ) < length (arrays σ))%nat /\
  (forall l, currentTransition (this σ) = Some l ->
             (l < length (arrays σ))%nat).

(** What the store keeps from [σ] to [σ'] when nothing but the history
    may change, and the history may only lose entries; the store of
    arrays may have gained new ones. *)
Definition stalled (σ σ' : Store) : Prop :=
  effect (this σ') = effect (this σ) /\
  currentTransition (this σ') = currentTransition (this σ) /\
  promises σ' = promises σ /\
  stackSize (this σ') = stackSize (this σ) /\
  depth σ' <= depth σ /\
  (exists extra, arrays σ' = arrays σ ++ extra).

(** From [σ] to [σ'] no voting round was started. *)
Definition same_round (σ σ' : Store) : Prop :=
  currentTransition (this σ') = currentTransition (this σ) /\
  promises σ' = promises σ.

(** From [σ] to [σ'] one voting round was started. *)
Definition new_round (σ σ' : Store) : Prop :=
  currentTransition (this σ) = None /\
  registered σ <> [] /\
  currentTransition (this σ') = Some (ConfirmTransitions (this σ)) /\
  promises σ' = promises σ ++ [Waiting] /\
  arrays σ' = arrays σ.

(** An operation that leaves the handlers, the promises and the bound
    alone, as the two operations of the class do. *)
Definition keeps_round (op : Route -> Store -> option Store) : Prop :=
  forall r σ σ1,
    op r σ = Some σ1 ->
    arrays σ1 = arrays σ /\
    promises σ1 = promises σ /\
    ConfirmTransitions (this σ1) = ConfirmTransitions (this σ) /\
    currentTransition (this σ1) = currentTransition (this σ) /\
    stackSize (this σ1) = stackSize (this σ).

(** [n] calls of [pop] in a row, with the routes they yield. *)
Fixpoint pops (n : nat) (σ : Store) : option (list Route * Store) :=
  match n with
  | O => Some ([], σ)
  | S n' =>
      '(r, _, σ1) ← pop σ; '(rs, σ2) ← pops n' σ1; Some (r :: rs, σ2)
  end.

(** Each route of the list differs from the one before it, the first
    from [cur]: no push of the list is a push of the route shown. *)
Fixpoint changes (cur : Route) (rs : list Route) : Prop :=
  match rs with
  | [] => True
  | r :: rest => cur <> r /\ changes r rest
  end.

(** No transition is pending and no handler is registered. *)
Definition quiet (σ : Store) : Prop :=
  currentTransition (this σ) = None /\ registered σ = [].

(** The route was shown at some time: it was fired, or it is the
    initial [undefined]. *)
Definition shown (σ : Store) (x : Route) : Prop :=
  x = undefined \/ x ∈ fired (effect (this σ)).

(** The current route and every entry of the history were shown. *)
Definition visited_only (σ : Store) : Prop :=
  shown σ (get (effect (this σ))) /\ Forall (shown σ) (routeStack (this σ)).

(** The history a request leaves behind before the handlers vote. *)
Definition history_at_request (c : Call) (σ : Store) : list Route :=
  match c with
  | CallPush _ => routeStack (this σ)
  | CallPop => removelast (routeStack (this σ))
  | CallSet _ => []
  end.

(** The route a request asks the handlers about. *)
Definition requested (c : Call) (σ : Store) : Route :=
  match c with
  | CallPush r | CallSet r => r
  | CallPop => List.last (routeStack (this σ)) undefined
  end.

(** A mapper that knows the empty url and one more. *)
Definition sample_mapper : UrlMapper :=
  fun url =>
    if String.eqb url "" then Some (route 0)
    else if String.eqb url "/home" then Some (route 1)
    else None.

(** ** Handlers that act before they return *)

(** What a handler does in its own body when [forEach] calls it.  It may
    keep the transition for later and return; it may call a capability
    at once, and what the capability throws then escapes from the
    handler; it may throw an error of its own.  (A handler that catches
    what a capability throws ends like one that keeps the transition.) *)
Inductive Body :=
| Keeps
| Confirms
| Cancels (reason : option Error)
| Raises (e : Error).

(** [handler({ route, cancel, confirm })] *)
Definition invoke (b : Body) (cl : Closure) (h : ConfirmTransition)
    (σ : Store) : option (Completion * Store) :=
  match b with
  | Keeps => Some (Normal, σ)
  | Confirms => confirm cl h σ
  | Cancels reason => cancel cl reason σ
  | Raises e => Some (Throw e, σ)
  end.

(** [this.ConfirmTransitions.forEach(handler => handler({...}))]: the
    handlers are called in order until one throws; the handlers called
    are reported. *)
Fixpoint forEach (body : ConfirmTransition -> Body) (cl : Closure)
    (handlers : list ConfirmTransition) (σ : Store)
  : option (Completion * list ConfirmTransition * Store) :=
  match handlers with
  | [] => Some (Normal, [], σ)
  | h :: rest =>
      '(c, σ1) ← invoke (body h) cl h σ;
      match c with
      | Throw e => Some (Throw e, [h], σ1)
      | Normal =>
          '(c', called, σ2) ← forEach body cl rest σ1;
          Some (c', h :: called, σ2)
      end
  end.

(** [updateRoute] with the handlers running in the executor of the
    promise: what a handler throws there rejects the promise; the
    transition has been marked as started before.  The handlers called
    are reported beside the outcome. *)
Definition updateRouteWith (body : ConfirmTransition -> Body) (r : Route)
    (op : Route -> Store -> option Store) (σ : Store)
  : option (Outcome * list ConfirmTransition * Store) :=
  match currentTransition (this σ) with
  | Some _ => Some (Rejected in_progress, [], σ)
  | None =>
      let handlers := deref σ (ConfirmTransitions (this σ)) in
      if (length handlers =? 0)%nat then
        σ1 ← op r σ; Some (Resolved, [], σ1)
      else
        let σ1 :=
          upd (set_currentTransition (Some (ConfirmTransitions (this σ)))) σ in
        let p := length (promises σ1) in
        let σ2 := mkStore (this σ1) (arrays σ1) (promises σ1 ++ [Waiting]) in
        let cl := mkClosure r op p in
        '(c, called, σ3) ← forEach body cl handlers σ2;
        match c with
        | Normal => Some (Voting cl called, called, σ3)
        | Throw e => Some (Rejected e, called, reject p e σ3)
        end
  end.

Definition popWith (body : ConfirmTransition -> Body) (σ : Store)
  : option (Route * Outcome * list ConfirmTransition * Store) :=
  let previousRoute := List.last (routeStack (this σ)) undefined in
  let σ1 := upd (set_routeStack (removelast (routeStack (this σ)))) σ in
  '(out, called, σ2) ← updateRouteWith body previousRoute update_op σ1;
  Some (previousRoute, out, called, σ2).

Definition setWith (body : ConfirmTransition -> Body) (r : Route) (σ : Store)
  : option (Outcome * list ConfirmTransition * Store) :=
  let σ1 := upd (set_routeStack []) σ in
  if strict_eq (get (effect (this σ1))) r then
    Some (Resolved, [], upd (set_routeStack []) σ1)
  else updateRouteWith body r update_op σ1.

Definition pushWith (body : ConfirmTransition -> Body) (fuel : nat)
    (r : Route) (σ : Store)
  : option (Outcome * list ConfirmTransition * Store) :=
  if strict_eq (get (effect (this σ))) r then Some (Resolved, [], σ)
  else updateRouteWith body r (push_op fuel) σ.

Definition callWith (body : ConfirmTransition -> Body) (fuel : nat)
    (c : Call) (σ : Store)
  : option (Outcome * list ConfirmTransition * Store) :=
  match c with
  | CallPush r => pushWith body fuel r σ
  | CallPop => '(_, out, called, σ1) ← popWith body σ; Some (out, called, σ1)
  | CallSet r => setWith body r σ
  end.

(** The promise of a call, without the list of handlers called. *)
Definition promised (x : option (Outcome * list ConfirmTransition * Store))
  : option (Outcome * Store) :=
  '(out, _, σ1) ← x; Some (out, σ1).

(** A step of the life of a router whose handlers act as [body] says. *)
Definition stepWith (body : ConfirmTransition -> Body) (fuel : nat)
    (mapUrl : option UrlMapper) (ev : Event) (σ : Store) : option Store :=
  match ev with
  | EvCall c => snd <$> callWith body fuel c σ
  | EvSetUrl url =>
      snd <$> updateUrl mapUrl url (fun r s => promised (setWith body r s)) σ
  | EvPushUrl url =>
      snd <$> updateUrl mapUrl url
                (fun r s => promised (pushWith body fuel r s)) σ
  | EvRegister h => Some (registerConfirm h σ)
  | EvUnregister h => Some (unregisterConfirm h σ)
  | EvVote cl v => snd <$> vote cl v σ
  end.

(** A life in which the handlers may act differently at every step. *)
Fixpoint runWith (fuel : nat) (mapUrl : option UrlMapper)
    (evs : list ((ConfirmTransition -> Body) * Event)) (σ : Store)
  : option Store :=
  match evs with
  | [] => Some σ
  | (body, ev) :: rest =>
      σ1 ← stepWith body fuel mapUrl ev σ; runWith fuel mapUrl rest σ1
  end.

(** The error that escapes from a handler, if one does. *)
Definition escapes (b : Body) : option Error :=
  match b with
  | Keeps => None
  | Confirms | Cancels _ => Some this_is_undefined
  | Raises e => Some e
  end.

(** From [σ] to [σ'] one voting round was started, and its promise waits
    or is rejected. *)
Definition round_started (σ σ' : Store) : Prop :=
  currentTransition (this σ) = None /\
  registered σ <> [] /\
  currentTransition (this σ') = Some (ConfirmTransitions (this σ)) /\
  (promises σ' = promises σ ++ [Waiting] \/
   exists e, promises σ' = promises σ ++ [Failed e]) /\
  arrays σ' = arrays σ.

(** A router has started no voting round, or one, whose promise waits or
    is rejected and whose pending list is not empty. *)
Definition one_round (σ : Store) : Prop :=
  (currentTransition (this σ) = None /\ promises σ = []) \/
  (exists l, currentTransition (this σ) = Some l /\
             (promises σ = [Waiting] \/ exists e, promises σ = [Failed e]) /\
             deref σ l <> []).

(** Handler 0 confirms in its own body, the other handlers keep the
    transition. *)
Definition votes_at_once (h : ConfirmTransition) : Body :=
  if (h =? 0)%nat then Confirms else Keeps.

(** ** Scenarios *)

Definition one_handler : Store := registerConfirm 0%nat (newRouter 32).

Definition two_handlers : Store :=
  registerConfirm 1%nat (registerConfirm 0%nat (newRouter 32)).

Definition blocked : Error := mkError "blocked".

(** The store a call leaves behind (the store it started from, should
    the fuel run out). *)
Definition after (x : option (Outcome * Store)) (σ : Store) : Store :=
  from_option snd σ x.

(** A router that went from its initial route to route 1. *)
Definition showing_route_1 : Store :=
  after (push 1 (route 1) (newRouter 32)) (newRouter 32).

(** A router with a bound of two whose history is full. *)
Definition full_history : Store :=
  default (newRouter 2) (pushes 1 [route 1; route 2] (newRouter 2)).

(** The router that shows route 1, after it got a handler: it waits for
    the vote of the handler on a push of route 2. *)
Definition awaiting_vote : Store :=
  after (push 1 (route 2) (registerConfirm 0%nat showing_route_1))
        showing_route_1.

(** * Properties *)

(** The side conditions of [push_room] and [push_full] along a run. *)
Ltac side_condition Hst Hsz :=
  first
    [ solve [cbn; assumption]
    | solve [cbn; congruence]
    | solve [unfold registered, deref in *; cbn; assumption]
    | solve [unfold depth; cbn; rewrite ?Hst, ?Hsz; cbn; lia] ].


(** ** The capabilities as the class builds them *)

Lemma confirm_throws cl h σ : confirm cl h σ = Some (Throw this_is_undefined, σ).
Proof. reflexivity. Qed.

Lemma cancel_throws cl reason σ :
  cancel cl reason σ = Some (Throw this_is_undefined, σ).
Proof. reflexivity. Qed.

Lemma vote_throws cl v σ : vote cl v σ = Some (Throw this_is_undefined, σ).
Proof. destruct v; reflexivity. Qed.

Lemma votes_fixed cl vs σ : votes cl vs σ = Some σ.
Proof.
  induction vs as [|v vs IH]; [reflexivity|].
  cbn [votes]. rewrite vote_throws. exact IH.
Qed.

(** Were [complete] given the router as its [this], a confirmation would
    still stop at the call of [indexof], which no array has. *)
Lemma complete_router_confirm cl h σ l :
  currentTransition (this σ) = Some l ->
  complete this_router cl (Some h) None σ
  = Some (Throw indexof_is_not_a_function, σ).
Proof. intros H. unfold complete. rewrite H. reflexivity. Qed.

(** Were [complete] given the router as its [this], a cancellation would
    clear the pending transition and reject the promise with the reason
    of the handler, or with the default one. *)
Lemma complete_router_cancel cl reason σ l :
  currentTransition (this σ) = Some l ->
  complete this_router cl None reason σ
  = Some (Normal,
          reject (cl_promise cl) (default was_cancelled reason)
                 (upd (set_currentTransition None) σ)).
Proof. intros H. unfold complete. rewrite H. reflexivity. Qed.

(** Without a pending transition [complete] changes nothing, whatever its
    [this]. *)
Lemma complete_idle receiver cl handler reason σ :
  currentTransition (this σ) = None ->
  exists c, complete receiver cl handler reason σ = Some (c, σ).
Proof.
  intros H. destruct receiver; cbn [complete].
  - eexists; reflexivity.
  - rewrite H. eexists; reflexivity.
Qed.

(** A cancellation never touches the history, whatever its [this]. *)
Lemma complete_cancel_stack receiver cl reason σ c σ' :
  complete receiver cl None reason σ = Some (c, σ') ->
  routeStack (this σ') = routeStack (this σ).
Proof.
  destruct receiver; cbn [complete].
  - intros [= _ <-]. reflexivity.
  - destruct (currentTransition (this σ)).
    + intros [= _ <-]. unfold reject, settle; cbn.
      destruct (promises σ !! cl_promise cl) as [[]|]; reflexivity.
    + intros [= _ <-]. reflexivity.
Qed.

(** C1, on the code: two handlers are registered and a push is requested;
    both handlers confirm, in either order.  Every confirmation throws a
    type error and leaves the store as it was: the transition stays
    pending, its promise keeps waiting, nothing is pushed and nothing is
    fired, so the operation of the push has not run. *)
Theorem all_confirm_yet_pending :
  exists cl σ1,
    push 1 (route 1) two_handlers = Some (Voting cl [0; 1]%nat, σ1) /\
    confirm cl 0%nat σ1 = Some (Throw this_is_undefined, σ1) /\
    votes cl [VoteConfirm 0%nat; VoteConfirm 1%nat] σ1 = Some σ1 /\
    votes cl [VoteConfirm 1%nat; VoteConfirm 0%nat] σ1 = Some σ1 /\
    currentTransition (this σ1) = Some (ConfirmTransitions (this σ1)) /\
    promises σ1 = [Waiting] /\
    routeStack (this σ1) = [] /\
    effect (this σ1) = mkEffect undefined [].
Proof. do 2 eexists. repeat split. Qed.

(** C2, on the code: two handlers are registered and a push is requested;
    the first confirms and the second cancels with the reason "blocked".
    The cancellation throws a type error: the operation has not run, but
    the transition is still pending and its promise is not rejected, with
    "blocked" or with anything else. *)
Theorem cancel_yet_pending :
  exists cl σ1,
    push 1 (route 1) two_handlers = Some (Voting cl [0; 1]%nat, σ1) /\
    cancel cl (Some blocked) σ1 = Some (Throw this_is_undefined, σ1) /\
    votes cl [VoteConfirm 0%nat; VoteCancel (Some blocked)] σ1 = Some σ1 /\
    currentTransition (this σ1) = Some (ConfirmTransitions (this σ1)) /\
    promises σ1 = [Waiting] /\
    promises σ1 <> [Failed blocked] /\
    routeStack (this σ1) = [] /\
    effect (this σ1) = mkEffect undefined [].
Proof. do 2 eexists. repeat split. discriminate. Qed.

(** The pending list is shared with the registered handlers only until
    the next registration, which builds a new array: a handler that
    registers during a round is not waited for. *)
Lemma registerConfirm_outstanding h σ l :
  currentTransition (this σ) = Some l ->
  (l < length (arrays σ))%nat ->
  outstanding (registerConfirm h σ) = outstanding σ /\
  registered (registerConfirm h σ) = registered σ ++ [h].
Proof.
  intros Hc Hl. unfold outstanding, registered, registerConfirm, deref. cbn.
  rewrite Hc. cbn. rewrite lookup_app_l by exact Hl.
  rewrite lookup_app_r by lia. rewrite Nat.sub_diag. split; reflexivity.
Qed.

(** C9, on the code: one handler is registered and a push is requested.
    The pending list is the array of registered handlers itself, but the
    confirmation of the handler throws before it removes anything: the
    handler is still registered and still outstanding, nothing commits,
    and the next request is rejected instead of being applied at once. *)
Theorem confirm_removes_nothing :
  exists cl σ1,
    push 1 (route 1) one_handler = Some (Voting cl [0%nat], σ1) /\
    currentTransition (this σ1) = Some (ConfirmTransitions (this σ1)) /\
    confirm cl 0%nat σ1 = Some (Throw this_is_undefined, σ1) /\
    registered σ1 = [0%nat] /\
    outstanding σ1 = Some [0%nat] /\
    effect (this σ1) = mkEffect undefined [] /\
    push 1 (route 2) σ1 = Some (Rejected in_progress, σ1).
Proof. do 2 eexists. repeat split. Qed.

(** ** [pop] on an empty history *)

Lemma pop_empty_idle σ :
  routeStack (this σ) = [] ->
  currentTransition (this σ) = None ->
  registered σ = [] ->
  pop σ = Some (undefined, Resolved, update undefined σ).
Proof.
  intros Hs Hc Hr. unfold pop, updateRoute. rewrite Hs. cbn.
  rewrite Hc. unfold registered in Hr. unfold deref in *. cbn. rewrite Hr. cbn.
  destruct σ as [[e s z l c] a p]; cbn in *. subst. reflexivity.
Qed.

(** C4, on the code: the router shows route 1 and its history is empty.
    [pop] yields [undefined], and it also requests a transition to
    [undefined], which commits at once: [undefined] is fired and becomes
    the current route. *)
Theorem pop_empty_fires :
  exists σ1 σ2,
    set (route 1) (newRouter 32) = Some (Resolved, σ1) /\
    routeStack (this σ1) = [] /\
    get (effect (this σ1)) = route 1 /\
    pop σ1 = Some (undefined, Resolved, σ2) /\
    fired (effect (this σ2)) = fired (effect (this σ1)) ++ [undefined] /\
    get (effect (this σ2)) = undefined.
Proof. do 2 eexists. repeat split. Qed.

(** ** Calls while a transition is pending *)

Lemma updateRoute_pending r op σ l :
  currentTransition (this σ) = Some l ->
  updateRoute r op σ = Some (Rejected in_progress, σ).
Proof. intros H. unfold updateRoute. rewrite H. reflexivity. Qed.

Lemma push_pending fuel r σ l :
  currentTransition (this σ) = Some l ->
  push fuel r σ
  = Some (if strict_eq (get (effect (this σ))) r then Resolved
          else Rejected in_progress, σ).
Proof.
  intros H. unfold push.
  destruct (strict_eq _ r); [reflexivity|]. exact (updateRoute_pending _ _ _ _ H).
Qed.

Lemma pop_pending σ l :
  currentTransition (this σ) = Some l ->
  pop σ
  = Some (List.last (routeStack (this σ)) undefined, Rejected in_progress,
          upd (set_routeStack (removelast (routeStack (this σ)))) σ).
Proof.
  intros H. unfold pop.
  rewrite (updateRoute_pending _ _ _ l) by exact H. reflexivity.
Qed.

Lemma set_pending r σ l :
  currentTransition (this σ) = Some l ->
  set r σ
  = Some (if strict_eq (get (effect (this σ))) r then Resolved
          else Rejected in_progress, upd (set_routeStack []) σ).
Proof.
  intros H. unfold set. cbn.
  destruct (strict_eq _ r); [reflexivity|].
  rewrite (updateRoute_pending _ _ _ l) by exact H. reflexivity.
Qed.

(** C3, as stated, fails: a router shows route 5 and a push of route 6 is
    waiting for the vote of its handler; a push of route 5 at that moment
    returns at once and successfully, and so does a set of route 5. *)
Lemma push_current_while_pending :
  exists σa cl σb,
    push 1 (route 5) (newRouter 32) = Some (Resolved, σa) /\
    push 1 (route 6) (registerConfirm 0%nat σa) = Some (Voting cl [0%nat], σb) /\
    outstanding σb = Some [0%nat] /\
    push 1 (route 5) σb = Some (Resolved, σb) /\
    call 1 (CallPush (route 5)) σb <> Some (Rejected in_progress, σb) /\
    exists σc, set (route 5) σb = Some (Resolved, σc).
Proof. do 3 eexists. repeat split. - discriminate. - eexists. reflexivity. Qed.

(** C3, amended: while a transition is pending, [pop], and [push] and
    [set] of a route other than the current one, fail with the error that
    a transition is in progress; [push] and [set] of the current route
    return successfully.  None of these calls starts a voting round, and
    none touches the pending transition: the pending list and its
    handlers, the registered handlers, the promises made so far and the
    current route are as before.  The target route of the pending
    transition is held by the closure of its round, out of reach of any
    call. *)
Theorem pending_rejects_calls fuel c σ l :
  currentTransition (this σ) = Some l ->
  exists σ',
    call fuel c σ
    = Some (if names_current c σ then Resolved else Rejected in_progress, σ') /\
    currentTransition (this σ') = Some l /\
    outstanding σ' = outstanding σ /\
    registered σ' = registered σ /\
    arrays σ' = arrays σ /\
    promises σ' = promises σ /\
    effect (this σ') = effect (this σ).
Proof.
  intros H. destruct c as [r| |r]; cbn [call names_current].
  - rewrite (push_pending _ _ _ l H). exists σ. repeat split; assumption.
  - rewrite (pop_pending _ l H). cbn. eexists. split; [reflexivity|].
    unfold outstanding, registered. cbn. rewrite H. repeat split.
  - rewrite (set_pending _ _ l H). eexists. split; [reflexivity|].
    unfold outstanding, registered. cbn. rewrite H. repeat split.
Qed.

Lemma pending_rejects_calls_witness :
  currentTransition (this awaiting_vote) = Some 1%nat /\
  exists σ',
    call 1 CallPop awaiting_vote = Some (Rejected in_progress, σ') /\
    currentTransition (this σ') = Some 1%nat /\
    outstanding σ' = Some [0%nat].
Proof.
  split; [reflexivity|].
  destruct (pending_rejects_calls 1 CallPop awaiting_vote 1%nat eq_refl)
    as (σ' & Hc & Hl & Ho & _).
  exists σ'. repeat split; assumption.
Defined.

(** C10: while a transition is pending, [pop] drops the most recent entry
    of the history and then fails, [set] of another route empties the
    history and then fails, and [push] of another route fails with the
    store, and so the history, as it was. *)
Theorem pending_failure_not_atomic σ l :
  currentTransition (this σ) = Some l ->
  (exists σ',
      pop σ = Some (List.last (routeStack (this σ)) undefined,
                    Rejected in_progress, σ') /\
      routeStack (this σ') = removelast (routeStack (this σ))) /\
  (forall r, get (effect (this σ)) <> r ->
     exists σ',
       set r σ = Some (Rejected in_progress, σ') /\ routeStack (this σ') = []) /\
  (forall fuel r, get (effect (this σ)) <> r ->
     push fuel r σ = Some (Rejected in_progress, σ)).
Proof.
  intros H. split; [|split].
  - rewrite (pop_pending _ l H). eexists. split; reflexivity.
  - intros r Hr. rewrite (set_pending _ _ l H).
    unfold strict_eq. rewrite bool_decide_eq_false_2 by exact Hr.
    eexists. split; reflexivity.
  - intros fuel r Hr. rewrite (push_pending _ _ _ l H).
    unfold strict_eq. rewrite bool_decide_eq_false_2 by exact Hr. reflexivity.
Qed.

Lemma pending_failure_not_atomic_witness :
  currentTransition (this awaiting_vote) = Some 1%nat /\
  routeStack (this awaiting_vote) = [undefined] /\
  (exists σ',
      pop awaiting_vote = Some (undefined, Rejected in_progress, σ') /\
      routeStack (this σ') = []) /\
  (exists σ',
      set (route 3) awaiting_vote = Some (Rejected in_progress, σ') /\
      routeStack (this σ') = []) /\
  push 1 (route 3) awaiting_vote = Some (Rejected in_progress, awaiting_vote).
Proof.
  destruct (pending_failure_not_atomic awaiting_vote 1%nat eq_refl)
    as (Hpop & Hset & Hpush).
  split; [reflexivity|]. split; [reflexivity|]. split; [exact Hpop|].
  split; [apply Hset; discriminate|apply Hpush; discriminate].
Defined.

(** ** The bound on the history *)

Lemma shift_while_depth fuel size s s' :
  shift_while fuel size s = Some s' -> Z.of_nat (length s') < size.
Proof.
  revert s. induction fuel as [|fuel IH]; intros s; cbn [shift_while];
    rewrite Z.geb_leb; destruct (Z.leb_spec size (Z.of_nat (length s)));
    try discriminate; try (intros [= <-]; assumption).
  apply IH.
Qed.

Lemma shift_while_room fuel size s :
  Z.of_nat (length s) < size -> shift_while fuel size s = Some s.
Proof.
  intros H. destruct fuel; cbn [shift_while]; rewrite Z.geb_leb;
    destruct (Z.leb_spec size (Z.of_nat (length s))); try lia; reflexivity.
Qed.

Lemma shift_while_full fuel size s :
  1 <= size -> Z.of_nat (length s) = size ->
  shift_while (S fuel) size s = Some (tail s).
Proof.
  intros H1 Hs. cbn [shift_while]. rewrite Z.geb_leb.
  destruct (Z.leb_spec size (Z.of_nat (length s))); [|lia].
  apply shift_while_room. destruct s; cbn in *; lia.
Qed.

(** With a bound of zero or less the loop has no exit. *)
Lemma shift_while_stuck fuel size s :
  size <= 0 -> shift_while fuel size s = None.
Proof.
  intros H. revert s. induction fuel as [|fuel IH]; intros s;
    cbn [shift_while]; rewrite Z.geb_leb;
    destruct (Z.leb_spec size (Z.of_nat (length s))); try lia; auto.
Qed.

Lemma push_op_depth fuel r σ σ' :
  push_op fuel r σ = Some σ' ->
  depth σ' <= stackSize (this σ') /\ stackSize (this σ') = stackSize (this σ).
Proof.
  unfold push_op.
  destruct (shift_while fuel _ _) as [s|] eqn:E; [|discriminate].
  cbn. intros [= <-]. apply shift_while_depth in E.
  unfold depth. cbn. rewrite length_app. cbn. lia.
Qed.

Lemma push_depth fuel r σ out σ' :
  push fuel r σ = Some (out, σ') ->
  depth σ <= stackSize (this σ) ->
  depth σ' <= stackSize (this σ') /\ stackSize (this σ') = stackSize (this σ).
Proof.
  unfold push, updateRoute. intros H Hinv.
  destruct (strict_eq _ r); [injection H as _ <-; auto|].
  destruct (currentTransition (this σ)); [injection H as _ <-; auto|].
  destruct (length _ =? 0)%nat.
  - destruct (push_op fuel r σ) as [σ1|] eqn:E; [|discriminate].
    cbn in H. injection H as _ <-. exact (push_op_depth _ _ _ _ E).
  - injection H as _ <-. auto.
Qed.

Lemma push_returns r σ :
  1 <= stackSize (this σ) -> depth σ <= stackSize (this σ) ->
  is_Some (push 1 r σ).
Proof.
  intros H1 Hinv. unfold push, updateRoute.
  destruct (strict_eq _ r); [eauto|].
  destruct (currentTransition (this σ)); [eauto|].
  destruct (length _ =? 0)%nat; [|eauto].
  unfold push_op, depth in *.
  destruct (Z.eq_dec (Z.of_nat (length (routeStack (this σ)))) (stackSize (this σ))).
  - rewrite shift_while_full by assumption. cbn. eauto.
  - rewrite shift_while_room by lia. cbn. eauto.
Qed.

Lemma pushes_depth fuel rs : forall σ σ',
  pushes fuel rs σ = Some σ' ->
  depth σ <= stackSize (this σ) ->
  depth σ' <= stackSize (this σ') /\ stackSize (this σ') = stackSize (this σ).
Proof.
  induction rs as [|r rs IH]; intros σ σ'; cbn [pushes].
  - intros [= <-]; auto.
  - destruct (push fuel r σ) as [[out σ1]|] eqn:E; [|discriminate].
    cbn. intros H Hinv. destruct (push_depth _ _ _ _ _ E Hinv) as [H1 H2].
    destruct (IH _ _ H H1) as [H3 H4]. split; [assumption|congruence].
Qed.

Lemma pushes_return rs : forall σ,
  1 <= stackSize (this σ) -> depth σ <= stackSize (this σ) ->
  is_Some (pushes 1 rs σ).
Proof.
  induction rs as [|r rs IH]; intros σ H1 Hinv; cbn [pushes]; [eauto|].
  destruct (push_returns r σ H1 Hinv) as [[out σ1] E]. rewrite E. cbn.
  destruct (push_depth _ _ _ _ _ E Hinv) as [H2 H3].
  apply IH; [rewrite H3|]; assumption.
Qed.

Lemma push_evicts_oldest fuel r σ σ' :
  depth σ = stackSize (this σ) ->
  get (effect (this σ)) <> r ->
  push fuel r σ = Some (Resolved, σ') ->
  routeStack (this σ')
  = tail (routeStack (this σ)) ++ [get (effect (this σ))] /\
  get (effect (this σ')) = r.
Proof.
  unfold push, updateRoute, depth. intros Hfull Hr.
  unfold strict_eq. rewrite bool_decide_eq_false_2 by exact Hr.
  destruct (currentTransition (this σ)); [discriminate|].
  destruct (length _ =? 0)%nat; [|discriminate].
  unfold push_op.
  destruct (Z_le_gt_dec (stackSize (this σ)) 0) as [Hle|Hgt].
  - rewrite shift_while_stuck by exact Hle. discriminate.
  - destruct fuel as [|fuel].
    + cbn [shift_while]. rewrite Z.geb_leb.
      destruct (Z.leb_spec (stackSize (this σ))
                  (Z.of_nat (length (routeStack (this σ))))); [|lia].
      discriminate.
    + rewrite shift_while_full by lia. cbn. intros [= <-]. cbn. auto.
Qed.

Lemma newRouter_within_bound size :
  0 <= size -> depth (newRouter size) <= stackSize (this (newRouter size)).
Proof. intros H. exact H. Qed.

(** C5: a router whose history is within its bound keeps it within the
    bound through every sequence of [push] calls, so after each of them;
    a push that commits on a full history drops the oldest entry and
    appends the route shown until then.  With a bound of at least one
    every sequence of pushes returns (one unit of fuel is enough for each
    call); with a bound of zero or less the loop of a push that commits
    has no exit, and no bound is exceeded. *)
Theorem push_within_bound σ :
  depth σ <= stackSize (this σ) ->
  (forall fuel rs σ',
      pushes fuel rs σ = Some σ' -> depth σ' <= stackSize (this σ)) /\
  (1 <= stackSize (this σ) -> forall rs, is_Some (pushes 1 rs σ)) /\
  (forall fuel r σ',
      depth σ = stackSize (this σ) ->
      get (effect (this σ)) <> r ->
      push fuel r σ = Some (Resolved, σ') ->
      routeStack (this σ')
      = tail (routeStack (this σ)) ++ [get (effect (this σ))]).
Proof.
  intros Hinv. split; [|split].
  - intros fuel rs σ' H.
    destruct (pushes_depth _ _ _ _ H Hinv) as [H1 H2]. rewrite <- H2. exact H1.
  - intros H1 rs. apply pushes_return; assumption.
  - intros fuel r σ' Hfull Hr H.
    exact (proj1 (push_evicts_oldest _ _ _ _ Hfull Hr H)).
Qed.

Lemma push_within_bound_witness :
  depth full_history <= stackSize (this full_history) /\
  depth full_history = 2 /\
  (exists σ',
      pushes 1 [route 3; route 4] full_history = Some σ' /\ depth σ' <= 2) /\
  (exists σ',
      push 1 (route 3) full_history = Some (Resolved, σ') /\
      routeStack (this σ') = [route 1; route 2]).
Proof.
  assert (Hinv : depth full_history <= stackSize (this full_history))
    by (vm_compute; discriminate).
  destruct (push_within_bound full_history Hinv) as (Hb & Ht & Hf).
  split; [exact Hinv|]. split; [reflexivity|]. split.
  - destruct (Ht ltac:(vm_compute; discriminate) [route 3; route 4]) as [σ' E].
    exists σ'. split; [exact E|]. exact (Hb _ _ _ E).
  - eexists. split; [reflexivity|].
    apply (Hf 1%nat (route 3)); [reflexivity|discriminate|reflexivity].
Defined.

(** ** Votes after the transition is over *)


(** ** The scenario with a bound of two *)

(** C7, as stated, fails: on a new router with a bound of two, after the
    pushes of routes 1, 2 and 3 the history is [[route 1; route 2]], not
    [[route 2]], and route 3 is shown. *)
Lemma three_pushes_keep_two :
  exists σ',
    pushes 1 [route 1; route 2; route 3] (newRouter 2) = Some σ' /\
    routeStack (this σ') = [route 1; route 2] /\
    routeStack (this σ') <> [route 2] /\
    get (effect (this σ')) = route 3.
Proof. eexists. repeat split. discriminate. Qed.

Lemma push_idle fuel r σ :
  currentTransition (this σ) = None ->
  registered σ = [] ->
  get (effect (this σ)) <> r ->
  push fuel r σ = (σ1 ← push_op fuel r σ; Some (Resolved, σ1)).
Proof.
  intros Hc Hr Hne. unfold push, updateRoute, strict_eq.
  rewrite bool_decide_eq_false_2 by exact Hne. rewrite Hc.
  unfold registered in Hr. rewrite Hr. reflexivity.
Qed.

Lemma push_room fuel r σ :
  currentTransition (this σ) = None ->
  registered σ = [] ->
  get (effect (this σ)) <> r ->
  depth σ < stackSize (this σ) ->
  push fuel r σ = Some (Resolved, pushed (routeStack (this σ)) r σ).
Proof.
  intros Hc Hr Hne Hd. rewrite push_idle by assumption.
  unfold push_op. rewrite shift_while_room by exact Hd. reflexivity.
Qed.

Lemma push_full fuel r σ :
  currentTransition (this σ) = None ->
  registered σ = [] ->
  get (effect (this σ)) <> r ->
  1 <= stackSize (this σ) ->
  depth σ = stackSize (this σ) ->
  push (S fuel) r σ = Some (Resolved, pushed (tail (routeStack (this σ))) r σ).
Proof.
  intros Hc Hr Hne H1 Hd. rewrite push_idle by assumption.
  unfold push_op. rewrite shift_while_full by assumption. reflexivity.
Qed.

Lemma push_same fuel r σ :
  get (effect (this σ)) = r -> push fuel r σ = Some (Resolved, σ).
Proof.
  intros H. unfold push, strict_eq.
  rewrite bool_decide_eq_true_2 by exact H. reflexivity.
Qed.

(** The loop of [push] with fuel for every entry. *)
Lemma shift_while_enough fuel size : forall s,
  1 <= size ->
  (length s <= fuel)%nat ->
  shift_while fuel size s = Some (drop (length s - (Z.to_nat size - 1)) s).
Proof.
  induction fuel as [|fuel IH]; intros s H1 Hf.
  - destruct s; [|cbn in Hf; lia].
    rewrite shift_while_room by (cbn; lia). reflexivity.
  - cbn [shift_while]. rewrite Z.geb_leb.
    destruct (Z.leb_spec size (Z.of_nat (length s))) as [Hge|Hlt].
    + destruct s as [|x s]; [cbn in Hge; lia|]. cbn [tail length] in *.
      rewrite IH by lia.
      replace (S (length s) - (Z.to_nat size - 1))%nat
        with (S (length s - (Z.to_nat size - 1)))%nat by lia.
      reflexivity.
    + replace (length s - (Z.to_nat size - 1))%nat with 0%nat by lia.
      reflexivity.
Qed.

(** A push that commits on a router with a bound of two keeps the newest
    entry of the history, if there is one. *)
Lemma push_bound_two fuel r σ :
  currentTransition (this σ) = None ->
  registered σ = [] ->
  get (effect (this σ)) <> r ->
  stackSize (this σ) = 2 ->
  (length (routeStack (this σ)) <= fuel)%nat ->
  push fuel r σ
  = Some (Resolved,
          pushed (drop (length (routeStack (this σ)) - 1) (routeStack (this σ)))
                 r σ).
Proof.
  intros Hc Hr Hne Hsz Hf. rewrite push_idle by assumption.
  unfold push_op. rewrite Hsz.
  rewrite shift_while_enough by (try assumption; lia). reflexivity.
Qed.

(** C7, amended: on a router with a bound of two, no handler registered
    and no transition pending, the pushes of three distinct routes A, B
    and C leave the history equal to [[A; B]], whatever the history was
    before: the older entries are dropped first.  The current route
    is C. *)
Theorem three_pushes_history fuel A B C σ :
  A <> B -> B <> C -> A <> C ->
  stackSize (this σ) = 2 ->
  registered σ = [] ->
  currentTransition (this σ) = None ->
  exists σ',
    pushes (2 + length (routeStack (this σ)) + fuel) [A; B; C] σ = Some σ' /\
    routeStack (this σ') = [A; B] /\
    get (effect (this σ')) = C.
Proof.
  intros HAB HBC HAC Hsz Hr Hc.
  set (n := length (routeStack (this σ))).
  set (kept := drop (n - 1) (routeStack (this σ))).
  assert (Hk : (length kept <= 1)%nat)
    by (unfold kept, n; rewrite length_drop; lia).
  remember (2 + n + fuel)%nat as f eqn:Hf.
  assert (Hn : (n <= f)%nat) by lia.
  assert (H2 : (2 <= f)%nat) by lia.
  clear Hf. cbn [pushes].
  destruct (decide (get (effect (this σ)) = A)) as [HvA|HvA].
  - rewrite push_same by exact HvA. cbn.
    rewrite (push_bound_two f B σ Hc Hr ltac:(congruence) Hsz Hn).
    fold n. fold kept. cbn.
    rewrite (push_bound_two f C (pushed kept B σ) Hc Hr HBC Hsz
               ltac:(cbn; rewrite length_app; cbn; lia)).
    cbn. eexists. split; [reflexivity|]. cbn.
    rewrite length_app. cbn. rewrite Nat.add_sub, drop_app_length, HvA. auto.
  - rewrite (push_bound_two f A σ Hc Hr HvA Hsz Hn).
    fold n. fold kept. cbn.
    rewrite (push_bound_two f B (pushed kept A σ) Hc Hr HAB Hsz
               ltac:(cbn; rewrite length_app; cbn; lia)).
    cbn. rewrite length_app. cbn. rewrite Nat.add_sub, drop_app_length.
    rewrite (push_bound_two f C
               (pushed [get (effect (this σ))] B (pushed kept A σ))
               Hc Hr HBC Hsz ltac:(cbn; lia)).
    cbn. eexists. split; [reflexivity|]. cbn. auto.
Qed.

Lemma three_pushes_history_witness :
  routeStack (this full_history) = [undefined; route 1] /\
  exists σ',
    pushes 4 [route 7; route 8; route 9] full_history = Some σ' /\
    routeStack (this σ') = [route 7; route 8] /\
    get (effect (this σ')) = route 9.
Proof.
  split; [reflexivity|].
  apply (three_pushes_history 0 (route 7) (route 8) (route 9) full_history);
    first [discriminate | reflexivity].
Defined.

(** ** [set] clears the history first *)

Lemma updateRoute_stack r σ out σ' :
  updateRoute r update_op σ = Some (out, σ') ->
  routeStack (this σ') = routeStack (this σ).
Proof.
  unfold updateRoute.
  destruct (currentTransition (this σ)); [intros [= _ <-]; reflexivity|].
  destruct (length _ =? 0)%nat; cbn; intros [= _ <-]; reflexivity.
Qed.

Lemma updateRoute_returns r σ :
  is_Some (updateRoute r update_op σ).
Proof.
  unfold updateRoute.
  destruct (currentTransition (this σ)); [eauto|].
  destruct (length _ =? 0)%nat; cbn; eauto.
Qed.

(** C8: [set] always returns, and the history is empty from then on,
    whether the promise is fulfilled, rejected or waiting for votes.  If
    the route is the current one the store is otherwise untouched:
    nothing is fired and no transition is requested.  Otherwise the
    history is emptied before the vote, and a later cancellation does not
    bring it back (for [complete] whatever its [this]). *)
Theorem set_clears_history_first r σ :
  exists out σ',
    set r σ = Some (out, σ') /\
    routeStack (this σ') = [] /\
    (get (effect (this σ)) = r ->
       out = Resolved /\ σ' = upd (set_routeStack []) σ /\
       fired (effect (this σ')) = fired (effect (this σ))) /\
    (forall cl reason, exists c σ'',
       cancel cl reason σ' = Some (c, σ'') /\ routeStack (this σ'') = []) /\
    (forall receiver cl reason c σ'',
       complete receiver cl None reason σ' = Some (c, σ'') ->
       routeStack (this σ'') = []).
Proof.
  unfold set. cbn. unfold strict_eq.
  destruct (decide (get (effect (this σ)) = r)) as [Heq|Hne].
  - rewrite bool_decide_eq_true_2 by exact Heq.
    exists Resolved, (upd (set_routeStack []) σ). repeat split.
    + intros cl reason. do 2 eexists. split; reflexivity.
    + intros receiver cl reason c σ'' H.
      rewrite (complete_cancel_stack _ _ _ _ _ _ H). reflexivity.
  - rewrite bool_decide_eq_false_2 by exact Hne.
    destruct (updateRoute_returns r (upd (set_routeStack []) σ)) as [[out σ'] E].
    pose proof (updateRoute_stack _ _ _ _ E) as Hs. cbn in Hs.
    exists out, σ'. split; [exact E|]. split; [exact Hs|]. split; [tauto|]. split.
    + intros cl reason. do 2 eexists. split; [reflexivity|exact Hs].
    + intros receiver cl reason c σ'' H.
      rewrite (complete_cancel_stack _ _ _ _ _ _ H). exact Hs.
Qed.

(** * Further properties of the class *)

(** ** Changing the route by url *)

(** X1: [updateUrl], and so [setUrl] and [pushUrl], fail for two reasons
    only: the router has no mapper, or the mapper knows no route for the
    url.  The error names the url, and the router is left untouched: in
    particular a failing [setUrl] does not clear the history.  What the
    operation does later never makes the call fail. *)
Theorem updateUrl_rejects mapUrl url op σ e σ' :
  updateUrl mapUrl url op σ = Some (UrlRejected e, σ') <->
  σ' = σ /\
  ((mapUrl = None /\ e = no_mapping url) \/
   (exists map_url,
       mapUrl = Some map_url /\
       (map_url (default "" url) = None \/
        map_url (default "" url) = Some undefined) /\
       e = not_found url)).
Proof.
  unfold updateUrl. split.
  - destruct mapUrl as [f|].
    + destruct (f (default "" url)) as [[|id]|] eqn:E.
      * intros [= <- <-]. split; [reflexivity|]. right. exists f. auto.
      * destruct (op (route id) σ) as [[out σ1]|]; cbn; discriminate.
      * intros [= <- <-]. split; [reflexivity|]. right. exists f. auto.
    + intros [= <- <-]. auto.
  - intros [-> [[-> ->]|(f & -> & [E|E] & ->)]]; [reflexivity| |];
      rewrite E; reflexivity.
Qed.

(** X2: [updateUrl] does not wait for the operation.  While a transition
    is pending, [push] of a route that is not shown fails with the error
    that a transition is in progress; [pushUrl] and [setUrl] of a url
    mapped to that route resolve with the route all the same, [pushUrl]
    leaving the router as it is and [setUrl] with the history cleared. *)
Theorem url_call_hides_rejection fuel map_url url id σ l :
  currentTransition (this σ) = Some l ->
  map_url (default "" url) = Some (route id) ->
  get (effect (this σ)) <> route id ->
  push fuel (route id) σ = Some (Rejected in_progress, σ) /\
  pushUrl fuel (Some map_url) url σ = Some (UrlResolved (route id), σ) /\
  set (route id) σ = Some (Rejected in_progress, upd (set_routeStack []) σ) /\
  setUrl (Some map_url) url σ
  = Some (UrlResolved (route id), upd (set_routeStack []) σ).
Proof.
  intros Hc Hm Hne.
  assert (Hpush : push fuel (route id) σ = Some (Rejected in_progress, σ)).
  { rewrite (push_pending _ _ _ l Hc). unfold strict_eq.
    rewrite bool_decide_eq_false_2 by exact Hne. reflexivity. }
  assert (Hset : set (route id) σ
                 = Some (Rejected in_progress, upd (set_routeStack []) σ)).
  { rewrite (set_pending _ _ l Hc). unfold strict_eq.
    rewrite bool_decide_eq_false_2 by exact Hne. reflexivity. }
  repeat split; try assumption.
  - unfold pushUrl, updateUrl. rewrite Hm, Hpush. reflexivity.
  - unfold setUrl, updateUrl. rewrite Hm, Hset. reflexivity.
Qed.

Lemma url_call_hides_rejection_witness :
  currentTransition (this awaiting_vote) = Some 1%nat /\
  push 1 (route 0) awaiting_vote = Some (Rejected in_progress, awaiting_vote) /\
  pushUrl 1 (Some sample_mapper) None awaiting_vote
  = Some (UrlResolved (route 0), awaiting_vote).
Proof.
  destruct (url_call_hides_rejection 1 sample_mapper None 0 awaiting_vote 1%nat
              eq_refl eq_refl ltac:(discriminate)) as (Hp & Hu & _).
  split; [reflexivity|]. split; assumption.
Defined.

(** X3: a [null] url is mapped as the empty url: [updateUrl] leaves the
    same store in both cases and resolves with the same route; only the
    text of the errors differs. *)
Theorem null_url_is_empty_url mapUrl op σ :
  snd <$> updateUrl mapUrl None op σ = snd <$> updateUrl mapUrl (Some "") op σ /\
  (forall r σ',
      updateUrl mapUrl None op σ = Some (UrlResolved r, σ') <->
      updateUrl mapUrl (Some "") op σ = Some (UrlResolved r, σ')) /\
  (forall e σ',
      updateUrl mapUrl None op σ = Some (UrlRejected e, σ') ->
      exists e', updateUrl mapUrl (Some "") op σ = Some (UrlRejected e', σ')).
Proof.
  unfold updateUrl. change (default "" (Some "")) with "".
  change (default "" None) with "".
  destruct mapUrl as [f|]; [destruct (f "") as [[|id]|]|];
    (split; [reflexivity|split]);
    try (intros r σ'; split; intros H; first [discriminate H|exact H]);
    try (intros e σ' [= <- <-]; eauto).
  intros e σ'. destruct (op (route id) σ) as [[]|]; discriminate.
Qed.

(** ** Registering and unregistering handlers *)

Lemma registered_registerConfirm h σ :
  registered (registerConfirm h σ) = registered σ ++ [h].
Proof.
  unfold registered, registerConfirm, deref. cbn.
  rewrite lookup_app_r by lia. rewrite Nat.sub_diag. reflexivity.
Qed.

Lemma registered_unregisterConfirm h σ :
  registered (unregisterConfirm h σ) = filter (fun k => k ≠ h) (registered σ).
Proof.
  unfold registered, unregisterConfirm, deref. cbn.
  rewrite lookup_app_r by lia. rewrite Nat.sub_diag. reflexivity.
Qed.

Lemma filter_absent (h : ConfirmTransition) (hs : list ConfirmTransition) :
  h ∉ hs -> filter (fun k => k ≠ h) hs = hs.
Proof.
  induction hs as [|k hs IH]; [reflexivity|].
  intros Hn. apply not_elem_of_cons in Hn as [Hk Hn].
  rewrite filter_cons_True by congruence. rewrite IH by exact Hn. reflexivity.
Qed.

(** X4: the function returned by [registerConfirm] removes every
    registration of its handler, also those made by other calls of
    [registerConfirm] with the same handler, and keeps the other handlers
    in their order.  For a handler that was not registered before,
    registering and unregistering gives the former list back. *)
Theorem unregister_removes_every_copy h σ :
  registered (unregisterConfirm h (registerConfirm h σ))
  = filter (fun k => k ≠ h) (registered σ) /\
  (h ∉ registered (unregisterConfirm h (registerConfirm h σ))) /\
  (forall k, k <> h ->
     (k ∈ registered (unregisterConfirm h (registerConfirm h σ)) <->
      k ∈ registered σ)) /\
  (h ∉ registered σ ->
     registered (unregisterConfirm h (registerConfirm h σ)) = registered σ).
Proof.
  assert (E : registered (unregisterConfirm h (registerConfirm h σ))
              = filter (fun k => k ≠ h) (registered σ)).
  { rewrite registered_unregisterConfirm, registered_registerConfirm.
    rewrite filter_app. rewrite filter_cons_False by (intros H; apply H; reflexivity).
    rewrite filter_nil. apply app_nil_r. }
  rewrite E. split; [reflexivity|]. split; [|split].
  - intros H. apply list_elem_of_filter in H as [H _]. apply H. reflexivity.
  - intros k Hk. rewrite list_elem_of_filter. tauto.
  - apply filter_absent.
Qed.

Lemma unregisterConfirm_outstanding h σ l :
  currentTransition (this σ) = Some l ->
  (l < length (arrays σ))%nat ->
  outstanding (unregisterConfirm h σ) = outstanding σ.
Proof.
  intros Hc Hl. unfold outstanding, unregisterConfirm, deref. cbn.
  rewrite Hc. cbn. rewrite lookup_app_l by exact Hl. reflexivity.
Qed.

(** X5: a voting round ignores what happens to the registrations while it
    runs.  A handler registered during the round is not waited for, and a
    handler unregistered during the round is still waited for: leaving
    does not count as a confirmation. *)
Theorem round_ignores_registration h σ l :
  well_formed σ ->
  currentTransition (this σ) = Some l ->
  outstanding (registerConfirm h σ) = outstanding σ /\
  registered (registerConfirm h σ) = registered σ ++ [h] /\
  outstanding (unregisterConfirm h σ) = outstanding σ /\
  registered (unregisterConfirm h σ) = filter (fun k => k ≠ h) (registered σ) /\
  currentTransition (this (registerConfirm h σ)) = Some l /\
  currentTransition (this (unregisterConfirm h σ)) = Some l.
Proof.
  intros [_ Hwf] Hc. pose proof (Hwf l Hc) as Hl.
  destruct (registerConfirm_outstanding h σ l Hc Hl) as [H1 H2].
  split; [exact H1|]. split; [exact H2|].
  split; [exact (unregisterConfirm_outstanding h σ l Hc Hl)|].
  split; [apply registered_unregisterConfirm|]. split; exact Hc.
Qed.

Lemma round_ignores_registration_witness :
  well_formed awaiting_vote /\
  outstanding awaiting_vote = Some [0%nat] /\
  outstanding (unregisterConfirm 0%nat awaiting_vote) = Some [0%nat] /\
  registered (unregisterConfirm 0%nat awaiting_vote) = [] /\
  outstanding (registerConfirm 5%nat awaiting_vote) = Some [0%nat] /\
  registered (registerConfirm 5%nat awaiting_vote) = [0%nat; 5%nat].
Proof.
  assert (Hwf : well_formed awaiting_vote).
  { split; [vm_compute; lia|]. intros l [= <-]. vm_compute; lia. }
  destruct (round_ignores_registration 0%nat awaiting_vote 1%nat Hwf eq_refl)
    as (_ & _ & Hu & Hr & _).
  destruct (round_ignores_registration 5%nat awaiting_vote 1%nat Hwf eq_refl)
    as (Ho & Hg & _).
  split; [exact Hwf|]. split; [reflexivity|].
  split; [exact Hu|]. split; [exact Hr|]. split; [exact Ho|exact Hg].
Defined.

(** ** Requests *)

Lemma updateRoute_idle r op σ :
  currentTransition (this σ) = None ->
  registered σ = [] ->
  updateRoute r op σ = (σ1 ← op r σ; Some (Resolved, σ1)).
Proof.
  intros Hc Hr. unfold updateRoute. rewrite Hc.
  unfold registered in Hr. rewrite Hr. reflexivity.
Qed.

Lemma updateRoute_voting r op σ :
  currentTransition (this σ) = None ->
  registered σ <> [] ->
  updateRoute r op σ
  = Some (Voting (mkClosure r op (length (promises σ))) (registered σ),
          mkStore (set_currentTransition (Some (ConfirmTransitions (this σ)))
                                         (this σ))
                  (arrays σ) (promises σ ++ [Waiting])).
Proof.
  intros Hc Hr. unfold updateRoute. rewrite Hc. unfold registered in *.
  destruct (deref σ (ConfirmTransitions (this σ))); [congruence|reflexivity].
Qed.

Lemma pop_idle σ :
  currentTransition (this σ) = None ->
  registered σ = [] ->
  pop σ
  = Some (List.last (routeStack (this σ)) undefined, Resolved,
          update (List.last (routeStack (this σ)) undefined)
                 (upd (set_routeStack (removelast (routeStack (this σ)))) σ)).
Proof.
  intros Hc Hr. unfold pop. rewrite updateRoute_idle; [reflexivity|exact Hc|exact Hr].
Qed.

(** X7: with no handler registered and no transition pending, a [push]
    of another route followed by [pop] goes back: [pop] yields the route
    shown before the push and shows it again, and the history is as it
    was before the push, short of its oldest entry if it was full.  Both
    routes have been fired, in this order. *)
Theorem push_then_pop fuel r σ :
  currentTransition (this σ) = None ->
  registered σ = [] ->
  get (effect (this σ)) <> r ->
  1 <= stackSize (this σ) ->
  depth σ <= stackSize (this σ) ->
  exists σ1 σ2,
    push (S fuel) r σ = Some (Resolved, σ1) /\
    get (effect (this σ1)) = r /\
    pop σ1 = Some (get (effect (this σ)), Resolved, σ2) /\
    get (effect (this σ2)) = get (effect (this σ)) /\
    routeStack (this σ2)
    = (if depth σ <? stackSize (this σ) then routeStack (this σ)
       else tail (routeStack (this σ))) /\
    fired (effect (this σ2))
    = fired (effect (this σ)) ++ [r; get (effect (this σ))].
Proof.
  intros Hc Hr Hne H1 Hd.
  assert (Hpop : forall kept,
             pop (pushed kept r σ)
             = Some (get (effect (this σ)), Resolved,
                     update (get (effect (this σ)))
                            (upd (set_routeStack kept) (pushed kept r σ)))).
  { intros kept. rewrite pop_idle by (cbn; assumption). cbn.
    rewrite last_last, removelast_last. reflexivity. }
  destruct (Z.ltb_spec (depth σ) (stackSize (this σ))) as [Hlt|Hge].
  - rewrite push_room by assumption.
    do 2 eexists. split; [reflexivity|]. split; [reflexivity|].
    split; [apply Hpop|]. cbn. rewrite <- app_assoc. auto.
  - rewrite push_full by (try assumption; lia).
    do 2 eexists. split; [reflexivity|]. split; [reflexivity|].
    split; [apply Hpop|]. cbn. rewrite <- app_assoc. auto.
Qed.

Lemma push_then_pop_witness :
  exists σ1 σ2,
    push 1 (route 3) full_history = Some (Resolved, σ1) /\
    pop σ1 = Some (route 2, Resolved, σ2) /\
    get (effect (this σ2)) = route 2 /\
    routeStack (this σ2) = [route 1].
Proof.
  destruct (push_then_pop 0 (route 3) full_history eq_refl eq_refl
              ltac:(discriminate) ltac:(vm_compute; discriminate)
              ltac:(vm_compute; discriminate))
    as (σ1 & σ2 & Hpush & _ & Hpop & Hget & Hst & _).
  exists σ1, σ2. repeat split; assumption.
Defined.

(** X9: with no handler registered and no transition pending, [set]
    commits at once: the route is shown and the history is empty; the
    route is fired unless it was shown already.  A [pop] right after has
    nothing to go back to: it yields [undefined] and makes [undefined]
    the current route. *)
Theorem set_then_pop r σ :
  currentTransition (this σ) = None ->
  registered σ = [] ->
  exists σ1 σ2,
    set r σ = Some (Resolved, σ1) /\
    get (effect (this σ1)) = r /\
    routeStack (this σ1) = [] /\
    fired (effect (this σ1))
    = fired (effect (this σ))
      ++ (if strict_eq (get (effect (this σ))) r then [] else [r]) /\
    pop σ1 = Some (undefined, Resolved, σ2) /\
    get (effect (this σ2)) = undefined /\
    fired (effect (this σ2)) = fired (effect (this σ1)) ++ [undefined].
Proof.
  intros Hc Hr. unfold set. cbn. unfold strict_eq.
  destruct (decide (get (effect (this σ)) = r)) as [Heq|Hne].
  - rewrite bool_decide_eq_true_2 by exact Heq.
    do 2 eexists. split; [reflexivity|]. cbn.
    split; [exact Heq|]. split; [reflexivity|].
    split; [symmetry; apply app_nil_r|].
    split; [apply pop_empty_idle; cbn; auto|]. cbn. auto.
  - rewrite bool_decide_eq_false_2 by exact Hne.
    rewrite updateRoute_idle by (cbn; assumption). cbn.
    do 2 eexists. split; [reflexivity|]. cbn.
    split; [reflexivity|]. split; [reflexivity|]. split; [reflexivity|].
    split; [apply pop_empty_idle; cbn; auto|]. cbn. auto.
Qed.

Lemma set_then_pop_witness :
  exists σ1 σ2,
    set (route 9) full_history = Some (Resolved, σ1) /\
    routeStack (this σ1) = [] /\
    pop σ1 = Some (undefined, Resolved, σ2) /\
    get (effect (this σ2)) = undefined.
Proof.
  destruct (set_then_pop (route 9) full_history eq_refl eq_refl)
    as (σ1 & σ2 & Hset & _ & Hs & _ & Hpop & Hget & _).
  exists σ1, σ2. repeat split; assumption.
Defined.

(** ** A router that waits for votes *)

Lemma stalled_refl σ : stalled σ σ.
Proof.
  unfold stalled. repeat split; try reflexivity.
  exists []. symmetry. apply app_nil_r.
Qed.

Lemma stalled_trans σ1 σ2 σ3 : stalled σ1 σ2 -> stalled σ2 σ3 -> stalled σ1 σ3.
Proof.
  intros (He & Hc & Hp & Hz & Hd & x & Ha) (He' & Hc' & Hp' & Hz' & Hd' & y & Ha').
  unfold stalled. repeat split; try congruence; [lia|].
  exists (x ++ y). rewrite Ha', Ha. symmetry. apply app_assoc.
Qed.

Lemma stalled_history s σ :
  (length s <= length (routeStack (this σ)))%nat ->
  stalled σ (upd (set_routeStack s) σ).
Proof.
  intros H. unfold stalled, depth. cbn. repeat split; [lia|].
  exists []. symmetry. apply app_nil_r.
Qed.

Lemma length_removelast_le (s : list Route) :
  (length (removelast s) <= length s)%nat.
Proof. rewrite removelast_firstn_len, length_take. lia. Qed.

Lemma call_pending fuel c σ l :
  currentTransition (this σ) = Some l ->
  exists out σ', call fuel c σ = Some (out, σ') /\ stalled σ σ'.
Proof.
  intros H. destruct c as [r| |r]; cbn [call].
  - rewrite (push_pending _ _ _ l H). do 2 eexists.
    split; [reflexivity|apply stalled_refl].
  - rewrite (pop_pending _ l H). cbn. do 2 eexists.
    split; [reflexivity|]. apply stalled_history, length_removelast_le.
  - rewrite (set_pending _ _ l H). do 2 eexists.
    split; [reflexivity|]. apply stalled_history. cbn. lia.
Qed.

Lemma updateUrl_cases mapUrl url op σ :
  (exists e, updateUrl mapUrl url op σ = Some (UrlRejected e, σ)) \/
  (exists id,
      updateUrl mapUrl url op σ
      = ('(_, σ1) ← op (route id) σ; Some (UrlResolved (route id), σ1))).
Proof.
  unfold updateUrl. destruct mapUrl as [f|]; [|eauto].
  destruct (f (default "" url)) as [[|id]|]; eauto.
Qed.

Lemma registerConfirm_stalled h σ : stalled σ (registerConfirm h σ).
Proof.
  unfold stalled, depth. cbn. repeat split; [lia|]. eexists. reflexivity.
Qed.

Lemma unregisterConfirm_stalled h σ : stalled σ (unregisterConfirm h σ).
Proof.
  unfold stalled, depth. cbn. repeat split; [lia|]. eexists. reflexivity.
Qed.

Lemma step_pending fuel mapUrl ev σ l :
  currentTransition (this σ) = Some l ->
  exists σ', step fuel mapUrl ev σ = Some σ' /\ stalled σ σ'.
Proof.
  intros H. destruct ev as [c|url|url|h|h|cl v]; cbn [step].
  - destruct (call_pending fuel c σ l H) as (out & σ' & E & Hs).
    rewrite E. eauto.
  - unfold setUrl.
    destruct (updateUrl_cases mapUrl url set σ) as [[e E]|[id E]]; rewrite E.
    + cbn. eauto using stalled_refl.
    + destruct (call_pending fuel (CallSet (route id)) σ l H)
        as (out & σ' & E' & Hs). cbn [call] in E'. rewrite E'. cbn. eauto.
  - unfold pushUrl.
    destruct (updateUrl_cases mapUrl url (push fuel) σ) as [[e E]|[id E]];
      rewrite E.
    + cbn. eauto using stalled_refl.
    + destruct (call_pending fuel (CallPush (route id)) σ l H)
        as (out & σ' & E' & Hs). cbn [call] in E'. rewrite E'. cbn. eauto.
  - eauto using registerConfirm_stalled.
  - eauto using unregisterConfirm_stalled.
  - rewrite vote_throws. cbn. eauto using stalled_refl.
Qed.

Lemma run_pending fuel mapUrl evs : forall σ l,
  currentTransition (this σ) = Some l ->
  exists σ', run fuel mapUrl evs σ = Some σ' /\ stalled σ σ'.
Proof.
  induction evs as [|ev evs IH]; intros σ l H; cbn [run].
  - eauto using stalled_refl.
  - destruct (step_pending fuel mapUrl ev σ l H) as (σ1 & E & Hs).
    rewrite E. cbn.
    destruct (IH σ1 l) as (σ' & E' & Hs').
    + destruct Hs as (_ & Hc & _). congruence.
    + exists σ'. split; [exact E'|]. exact (stalled_trans _ _ _ Hs Hs').
Qed.

Lemma stalled_deref σ σ' l :
  stalled σ σ' -> (l < length (arrays σ))%nat -> deref σ' l = deref σ l.
Proof.
  intros (_ & _ & _ & _ & _ & x & Ha) Hl. unfold deref.
  rewrite Ha, lookup_app_l by exact Hl. reflexivity.
Qed.

(** X10: a router that waits for votes waits for ever.  Whatever its
    clients do from then on (calls of [push], [pop], [set], [setUrl] and
    [pushUrl], registrations, unregistrations, and any votes, confirming
    or cancelling), every call returns, the same transition stays
    pending with the same handlers outstanding, its promise is never
    settled, no promise is added, and the effect handler is never fired
    again: the current route has changed for the last time.  The history
    can only lose entries. *)
Theorem pending_for_ever fuel mapUrl evs σ l :
  well_formed σ ->
  currentTransition (this σ) = Some l ->
  exists σ',
    run fuel mapUrl evs σ = Some σ' /\
    currentTransition (this σ') = Some l /\
    outstanding σ' = outstanding σ /\
    promises σ' = promises σ /\
    effect (this σ') = effect (this σ) /\
    depth σ' <= depth σ.
Proof.
  intros [_ Hwf] Hc.
  destruct (run_pending fuel mapUrl evs σ l Hc) as (σ' & E & Hs).
  exists σ'. split; [exact E|].
  pose proof (stalled_deref _ _ l Hs (Hwf l Hc)) as Hd.
  destruct Hs as (He & Hc' & Hp & _ & Hdepth & _).
  split; [congruence|]. split.
  - unfold outstanding. rewrite Hc', Hc. cbn. rewrite Hd. reflexivity.
  - auto.
Qed.

Lemma pending_for_ever_witness :
  well_formed awaiting_vote /\
  currentTransition (this awaiting_vote) = Some 1%nat /\
  exists σ',
    run 1 (Some sample_mapper)
        [EvVote (mkClosure (route 2) (push_op 1) 0) (VoteConfirm 0%nat);
         EvUnregister 0%nat;
         EvCall (CallPush (route 2));
         EvSetUrl (Some "/home");
         EvVote (mkClosure (route 2) (push_op 1) 0) (VoteCancel None);
         EvCall CallPop]
        awaiting_vote
    = Some σ' /\
    currentTransition (this σ') = Some 1%nat /\
    outstanding σ' = Some [0%nat] /\
    get (effect (this σ')) = route 1.
Proof.
  assert (Hwf : well_formed awaiting_vote).
  { split; [vm_compute; lia|]. intros l [= <-]. vm_compute; lia. }
  split; [exact Hwf|]. split; [reflexivity|].
  destruct (pending_for_ever 1 (Some sample_mapper)
              [EvVote (mkClosure (route 2) (push_op 1) 0) (VoteConfirm 0%nat);
               EvUnregister 0%nat;
               EvCall (CallPush (route 2));
               EvSetUrl (Some "/home");
               EvVote (mkClosure (route 2) (push_op 1) 0) (VoteCancel None);
               EvCall CallPop]
              awaiting_vote 1%nat Hwf eq_refl)
    as (σ' & E & Hc & Ho & _ & He & _).
  exists σ'. split; [exact E|]. split; [exact Hc|].
  split; [rewrite Ho; reflexivity|]. rewrite He. reflexivity.
Defined.

(** ** What a call does to the voting rounds *)

Lemma update_op_keeps : keeps_round update_op.
Proof. intros r σ σ1 [= <-]. cbn. auto. Qed.

Lemma push_op_keeps fuel : keeps_round (push_op fuel).
Proof.
  intros r σ σ1. unfold push_op.
  destruct (shift_while fuel _ _); [|discriminate].
  cbn. intros [= <-]. cbn. auto.
Qed.

Lemma same_round_refl σ : same_round σ σ.
Proof. split; reflexivity. Qed.

Lemma updateRoute_round r op σ out σ' :
  keeps_round op ->
  updateRoute r op σ = Some (out, σ') ->
  arrays σ' = arrays σ /\
  ConfirmTransitions (this σ') = ConfirmTransitions (this σ) /\
  stackSize (this σ') = stackSize (this σ) /\
  (same_round σ σ' \/ new_round σ σ').
Proof.
  intros Hop. unfold updateRoute.
  destruct (currentTransition (this σ)) as [l|] eqn:Hc.
  - intros [= _ <-]. repeat split. left. apply same_round_refl.
  - destruct (deref σ (ConfirmTransitions (this σ))) as [|h hs] eqn:Hr; cbn.
    + destruct (op r σ) as [σ1|] eqn:E; [|discriminate]. cbn.
      intros [= _ <-]. destruct (Hop _ _ _ E) as (Ha & Hp & Hl & Hc' & Hz).
      repeat split; try assumption. left. split; congruence.
    + intros [= _ <-]. cbn. repeat split. right.
      unfold new_round, registered. cbn. rewrite Hr.
      repeat split; try assumption. discriminate.
Qed.

Lemma call_round fuel c σ out σ' :
  call fuel c σ = Some (out, σ') ->
  arrays σ' = arrays σ /\
  ConfirmTransitions (this σ') = ConfirmTransitions (this σ) /\
  stackSize (this σ') = stackSize (this σ) /\
  (same_round σ σ' \/ new_round σ σ').
Proof.
  destruct c as [r| |r]; cbn [call].
  - unfold push. destruct (strict_eq _ r).
    + intros [= _ <-]. repeat split. left. apply same_round_refl.
    + apply updateRoute_round, push_op_keeps.
  - unfold pop.
    destruct (updateRoute _ update_op _) as [[out0 σ2]|] eqn:E; [|discriminate].
    cbn. intros [= _ <-].
    exact (updateRoute_round _ _ _ _ _ update_op_keeps E).
  - unfold set. cbn. destruct (strict_eq _ r).
    + intros [= _ <-]. repeat split. left. split; reflexivity.
    + intros E. exact (updateRoute_round _ _ _ _ _ update_op_keeps E).
Qed.

Lemma updateUrl_store mapUrl url op σ o σ' :
  updateUrl mapUrl url op σ = Some (o, σ') ->
  σ' = σ \/ exists r out, op r σ = Some (out, σ').
Proof.
  destruct (updateUrl_cases mapUrl url op σ) as [[e E]|[id E]]; rewrite E.
  - intros [= _ <-]. auto.
  - destruct (op (route id) σ) as [[out σ1]|] eqn:E'; [|discriminate].
    cbn. intros [= _ <-]. eauto.
Qed.

Lemma newRouter_well_formed size : well_formed (newRouter size).
Proof. split; [cbn; lia|]. intros l. discriminate. Qed.

(** ** The bound on the history, for every operation *)

Lemma call_depth fuel c σ out σ' :
  call fuel c σ = Some (out, σ') ->
  depth σ <= stackSize (this σ) ->
  depth σ' <= stackSize (this σ') /\ stackSize (this σ') = stackSize (this σ).
Proof.
  intros E Hinv.
  destruct (call_round _ _ _ _ _ E) as (_ & _ & Hz & _).
  split; [|exact Hz]. rewrite Hz. revert E.
  destruct c as [r| |r]; cbn [call].
  - intros E. destruct (push_depth _ _ _ _ _ E Hinv) as [H _]. lia.
  - unfold pop.
    destruct (updateRoute _ update_op _) as [[out0 σ2]|] eqn:E; [|discriminate].
    cbn. intros [= _ <-]. apply updateRoute_stack in E. cbn in E.
    unfold depth in *. rewrite E.
    pose proof (length_removelast_le (routeStack (this σ))). lia.
  - unfold set. cbn. unfold depth in *. destruct (strict_eq _ r).
    + intros [= _ <-]. cbn. lia.
    + intros E. apply updateRoute_stack in E. cbn in E. rewrite E. cbn. lia.
Qed.

Lemma call_returns c σ :
  1 <= stackSize (this σ) -> depth σ <= stackSize (this σ) ->
  is_Some (call 1 c σ).
Proof.
  intros H1 Hinv. destruct c as [r| |r]; cbn [call].
  - apply push_returns; assumption.
  - unfold pop.
    destruct (updateRoute_returns
                (List.last (routeStack (this σ)) undefined)
                (upd (set_routeStack (removelast (routeStack (this σ)))) σ))
      as [[out σ1] E].
    rewrite E. cbn. eauto.
  - unfold set. cbn. destruct (strict_eq _ r); [eauto|].
    apply updateRoute_returns.
Qed.

Lemma step_depth fuel mapUrl ev σ σ' :
  step fuel mapUrl ev σ = Some σ' ->
  depth σ <= stackSize (this σ) ->
  depth σ' <= stackSize (this σ') /\ stackSize (this σ') = stackSize (this σ).
Proof.
  destruct ev as [c|url|url|h|h|cl v]; cbn [step].
  - destruct (call fuel c σ) as [[out σ1]|] eqn:E; [|discriminate].
    cbn. intros [= <-]. exact (call_depth _ _ _ _ _ E).
  - destruct (setUrl mapUrl url σ) as [[o σ1]|] eqn:E; [|discriminate].
    cbn. intros [= <-]. apply updateUrl_store in E as [->|(r & out & E)].
    + auto.
    + exact (call_depth fuel (CallSet r) _ _ _ E).
  - destruct (pushUrl fuel mapUrl url σ) as [[o σ1]|] eqn:E; [|discriminate].
    cbn. intros [= <-]. apply updateUrl_store in E as [->|(r & out & E)].
    + auto.
    + exact (call_depth fuel (CallPush r) _ _ _ E).
  - intros [= <-]. auto.
  - intros [= <-]. auto.
  - rewrite vote_throws. cbn. intros [= <-]. auto.
Qed.

Lemma step_returns mapUrl ev σ :
  1 <= stackSize (this σ) -> depth σ <= stackSize (this σ) ->
  is_Some (step 1 mapUrl ev σ).
Proof.
  intros H1 Hinv. destruct ev as [c|url|url|h|h|cl v]; cbn [step].
  - destruct (call_returns c σ H1 Hinv) as [[out σ1] E]. rewrite E. cbn. eauto.
  - unfold setUrl.
    destruct (updateUrl_cases mapUrl url set σ) as [[e E]|[id E]]; rewrite E.
    + cbn. eauto.
    + destruct (call_returns (CallSet (route id)) σ H1 Hinv) as [[out σ1] E'].
      cbn [call] in E'. rewrite E'. cbn. eauto.
  - unfold pushUrl.
    destruct (updateUrl_cases mapUrl url (push 1) σ) as [[e E]|[id E]];
      rewrite E.
    + cbn. eauto.
    + destruct (call_returns (CallPush (route id)) σ H1 Hinv) as [[out σ1] E'].
      cbn [call] in E'. rewrite E'. cbn. eauto.
  - eauto.
  - eauto.
  - rewrite vote_throws. cbn. eauto.
Qed.

Lemma run_depth fuel mapUrl evs : forall σ σ',
  run fuel mapUrl evs σ = Some σ' ->
  depth σ <= stackSize (this σ) ->
  depth σ' <= stackSize (this σ') /\ stackSize (this σ') = stackSize (this σ).
Proof.
  induction evs as [|ev evs IH]; intros σ σ'; cbn [run].
  - intros [= <-]. auto.
  - destruct (step fuel mapUrl ev σ) as [σ1|] eqn:E; [|discriminate].
    cbn. intros H Hinv. destruct (step_depth _ _ _ _ _ E Hinv) as [H1 H2].
    destruct (IH _ _ H H1) as [H3 H4]. split; [assumption|congruence].
Qed.

Lemma run_returns mapUrl evs : forall σ,
  1 <= stackSize (this σ) -> depth σ <= stackSize (this σ) ->
  is_Some (run 1 mapUrl evs σ).
Proof.
  induction evs as [|ev evs IH]; intros σ H1 Hinv; cbn [run]; [eauto|].
  destruct (step_returns mapUrl ev σ H1 Hinv) as [σ1 E]. rewrite E. cbn.
  destruct (step_depth _ _ _ _ _ E Hinv) as [H2 H3].
  apply IH; [rewrite H3|]; assumption.
Qed.

(** X12: the bound on the history holds through every operation of the
    class, not only through [push]: from a history within the bound,
    whatever the clients do ([push], [pop], [set], [setUrl], [pushUrl],
    registrations, unregistrations, votes), the history stays within the
    bound, and the bound itself never changes.  With a bound of at least
    one every one of these calls returns. *)
Theorem history_within_bound σ :
  depth σ <= stackSize (this σ) ->
  (forall fuel mapUrl evs σ',
      run fuel mapUrl evs σ = Some σ' ->
      depth σ' <= stackSize (this σ) /\
      stackSize (this σ') = stackSize (this σ)) /\
  (1 <= stackSize (this σ) ->
   forall mapUrl evs, is_Some (run 1 mapUrl evs σ)).
Proof.
  intros Hinv. split.
  - intros fuel mapUrl evs σ' H.
    destruct (run_depth _ _ _ _ _ H Hinv) as [H1 H2].
    split; [rewrite <- H2|]; assumption.
  - intros H1 mapUrl evs. apply run_returns; assumption.
Qed.

Lemma history_within_bound_witness :
  depth full_history <= stackSize (this full_history) /\
  exists σ',
    run 1 (Some sample_mapper)
        [EvPushUrl (Some "/home"); EvCall (CallPush (route 4)); EvCall CallPop;
         EvPushUrl None; EvSetUrl (Some "/none")]
        full_history
    = Some σ' /\
    depth σ' <= 2.
Proof.
  assert (Hinv : depth full_history <= stackSize (this full_history))
    by (vm_compute; discriminate).
  destruct (history_within_bound full_history Hinv) as [Hb Ht].
  split; [exact Hinv|].
  destruct (Ht ltac:(vm_compute; discriminate) (Some sample_mapper)
              [EvPushUrl (Some "/home"); EvCall (CallPush (route 4));
               EvCall CallPop; EvPushUrl None; EvSetUrl (Some "/none")])
    as [σ' E].
  exists σ'. split; [exact E|]. exact (proj1 (Hb _ _ _ _ E)).
Defined.

(** ** The loop of [push] *)

(** X13: the loop that makes room in [push].  With a bound of at least
    one it ends, whatever the length of the history, after as many
    rounds as there are entries at most, and it keeps the newest
    entries, one less than the bound, dropping the older ones.  With a
    bound of zero or less it never ends. *)
Theorem shift_while_keeps_newest fuel size s :
  (1 <= size ->
   (length s <= fuel)%nat ->
   shift_while fuel size s
   = Some (drop (length s - (Z.to_nat size - 1)) s)) /\
  (size <= 0 -> shift_while fuel size s = None).
Proof.
  split; [|apply shift_while_stuck].
  intros H1. revert s. induction fuel as [|fuel IH]; intros s Hf.
  - destruct s; [|cbn in Hf; lia].
    rewrite shift_while_room by (cbn; lia). reflexivity.
  - cbn [shift_while]. rewrite Z.geb_leb.
    destruct (Z.leb_spec size (Z.of_nat (length s))) as [Hge|Hlt].
    + destruct s as [|x s]; [cbn in Hge; lia|]. cbn [tail length] in *.
      rewrite IH by lia.
      replace (S (length s) - (Z.to_nat size - 1))%nat
        with (S (length s - (Z.to_nat size - 1)))%nat by lia.
      reflexivity.
    + replace (length s - (Z.to_nat size - 1))%nat with 0%nat by lia.
      reflexivity.
Qed.

Lemma shift_while_keeps_newest_witness :
  shift_while 5 3 [route 1; route 2; route 3; route 4; route 5]
  = Some [route 4; route 5].
Proof.
  apply (proj1 (shift_while_keeps_newest 5 3
                  [route 1; route 2; route 3; route 4; route 5]));
    [lia|cbn; lia].
Defined.

(** ** The history is a stack *)

Lemma pushes_room fuel rs : forall σ,
  quiet σ ->
  changes (get (effect (this σ))) rs ->
  depth σ + Z.of_nat (length rs) <= stackSize (this σ) ->
  exists σ1,
    pushes fuel rs σ = Some σ1 /\
    quiet σ1 /\
    routeStack (this σ1)
    = routeStack (this σ) ++ removelast (get (effect (this σ)) :: rs).
Proof.
  induction rs as [|r rest IH]; intros σ Hq Hch Hd; cbn [pushes].
  - exists σ. split; [reflexivity|]. split; [exact Hq|].
    cbn. symmetry. apply app_nil_r.
  - destruct Hq as [Hc Hr]. destruct Hch as [Hne Hch].
    cbn [length] in Hd.
    rewrite push_room by (try assumption; lia). cbn.
    destruct (IH (pushed (routeStack (this σ)) r σ)) as (σ1 & E & Hq1 & Hs).
    + split; assumption.
    + exact Hch.
    + unfold depth in *. cbn. rewrite length_app. cbn. lia.
    + exists σ1. split; [exact E|]. split; [exact Hq1|].
      rewrite Hs. cbn [pushed update upd this routeStack set_routeStack
                       set_effect effect get fire value].
      rewrite <- app_assoc. reflexivity.
Qed.

Lemma pops_quiet xs : forall σ base,
  quiet σ ->
  routeStack (this σ) = base ++ xs ->
  exists σ2,
    pops (length xs) σ = Some (rev xs, σ2) /\
    routeStack (this σ2) = base /\
    get (effect (this σ2)) = hd (get (effect (this σ))) xs.
Proof.
  induction xs as [|y ys IH] using rev_ind; intros σ base [Hc Hr] Hs.
  - exists σ. split; [reflexivity|]. rewrite app_nil_r in Hs. auto.
  - rewrite length_app, Nat.add_1_r. cbn [pops].
    rewrite pop_idle by assumption. rewrite Hs, app_assoc.
    rewrite last_last, removelast_last. cbn.
    destruct (IH (update y (upd (set_routeStack (base ++ ys)) σ)) base)
      as (σ2 & E & Hs2 & Hg2); [split; assumption|reflexivity|].
    rewrite E. cbn. exists σ2. rewrite rev_unit.
    split; [reflexivity|]. split; [exact Hs2|].
    rewrite Hg2. destruct ys; reflexivity.
Qed.

(** X14: the history is a stack.  With no handler registered and no
    transition pending, after a sequence of pushes that each change the
    route and that fit in the bound, as many calls of [pop] yield the
    routes that were shown, the most recent first, down to the route
    shown before the first push, and leave the router showing that route
    with the history it had. *)
Theorem pushes_then_pops fuel rs σ :
  currentTransition (this σ) = None ->
  registered σ = [] ->
  changes (get (effect (this σ))) rs ->
  depth σ + Z.of_nat (length rs) <= stackSize (this σ) ->
  exists σ1 σ2,
    pushes fuel rs σ = Some σ1 /\
    pops (length rs) σ1
    = Some (rev (removelast (get (effect (this σ)) :: rs)), σ2) /\
    routeStack (this σ2) = routeStack (this σ) /\
    get (effect (this σ2)) = get (effect (this σ)).
Proof.
  intros Hc Hr Hch Hd.
  destruct (pushes_room fuel rs σ (conj Hc Hr) Hch Hd) as (σ1 & E & Hq1 & Hs).
  destruct (pops_quiet _ σ1 _ Hq1 Hs) as (σ2 & E2 & Hs2 & Hg2).
  assert (Hlen : length (removelast (get (effect (this σ)) :: rs)) = length rs).
  { rewrite removelast_firstn_len, length_take. cbn. lia. }
  rewrite Hlen in E2.
  exists σ1, σ2. split; [exact E|]. split; [exact E2|]. split; [exact Hs2|].
  rewrite Hg2. destruct rs as [|r rest]; [|reflexivity].
  cbn in E. injection E as <-. reflexivity.
Qed.

Lemma pushes_then_pops_witness :
  exists σ1 σ2,
    pushes 0 [route 1; route 2; route 3] (newRouter 32) = Some σ1 /\
    pops 3 σ1 = Some ([route 2; route 1; undefined], σ2) /\
    routeStack (this σ2) = [] /\
    get (effect (this σ2)) = undefined.
Proof.
  apply (pushes_then_pops 0 [route 1; route 2; route 3] (newRouter 32));
    [reflexivity|reflexivity| |vm_compute; discriminate].
  cbn. repeat split; discriminate.
Defined.

(** ** The history holds visited routes only *)

Lemma shift_while_suffix fuel size : forall s s',
  shift_while fuel size s = Some s' -> forall x, x ∈ s' -> x ∈ s.
Proof.
  induction fuel as [|fuel IH]; intros s s'; cbn [shift_while];
    destruct (Z.of_nat (length s) >=? size); try discriminate;
    try (intros [= <-]; auto).
  intros H x Hx. specialize (IH _ _ H x Hx).
  destruct s; [exact IH|]. apply elem_of_cons. right. exact IH.
Qed.

Lemma shown_update r σ x : shown σ x -> shown (update r σ) x.
Proof.
  intros [->|H]; [left; reflexivity|right]. cbn.
  apply elem_of_app. left. exact H.
Qed.

Lemma visited_update r σ : visited_only σ -> visited_only (update r σ).
Proof.
  intros [_ Hs]. split.
  - right. cbn. apply elem_of_app. right. apply list_elem_of_singleton.
    reflexivity.
  - cbn. eapply Forall_impl; [exact Hs|]. intros x. apply shown_update.
Qed.

Lemma visited_history s σ :
  visited_only σ ->
  (forall x, x ∈ s -> x ∈ routeStack (this σ) \/ x = get (effect (this σ))) ->
  visited_only (upd (set_routeStack s) σ).
Proof.
  intros [Hg Hs] Hsub. split; [exact Hg|]. cbn.
  apply Forall_forall. intros x Hx. destruct (Hsub x Hx) as [H| ->].
  - rewrite Forall_forall in Hs. exact (Hs x H).
  - exact Hg.
Qed.

Lemma removelast_subset (s : list Route) x : x ∈ removelast s -> x ∈ s.
Proof.
  rewrite removelast_firstn_len. intros H.
  apply list_elem_of_lookup in H as [i H].
  apply lookup_take_Some in H as [H _]. apply list_elem_of_lookup. eauto.
Qed.

Lemma updateRoute_visited r op σ out σ' :
  (forall σ1, op r σ = Some σ1 -> visited_only σ1) ->
  updateRoute r op σ = Some (out, σ') ->
  visited_only σ -> visited_only σ'.
Proof.
  intros Hop. unfold updateRoute.
  destruct (currentTransition (this σ)); [intros [= _ <-]; auto|].
  destruct (length _ =? 0)%nat.
  - destruct (op r σ) as [σ1|] eqn:E; [|discriminate]. cbn.
    intros [= _ <-] _. apply Hop. reflexivity.
  - intros [= _ <-] H. exact H.
Qed.

Lemma call_visited fuel c σ out σ' :
  call fuel c σ = Some (out, σ') -> visited_only σ -> visited_only σ'.
Proof.
  destruct c as [r| |r]; cbn [call].
  - unfold push. destruct (strict_eq _ r); [intros [= _ <-]; auto|].
    intros E Hv. refine (updateRoute_visited _ _ _ _ _ _ E Hv).
    intros σ1. unfold push_op.
    destruct (shift_while fuel _ _) as [kept|] eqn:Ek; [|discriminate].
    cbn. intros [= <-]. apply visited_update, visited_history; [exact Hv|].
    intros x Hx. apply elem_of_app in Hx as [Hx|Hx].
    + left. exact (shift_while_suffix _ _ _ _ Ek x Hx).
    + right. apply list_elem_of_singleton in Hx. exact Hx.
  - unfold pop.
    destruct (updateRoute _ update_op _) as [[out0 σ2]|] eqn:E; [|discriminate].
    cbn. intros [= _ <-] Hv.
    assert (Hv1 : visited_only
                    (upd (set_routeStack (removelast (routeStack (this σ)))) σ)).
    { apply visited_history; [exact Hv|]. intros x Hx. left.
      apply removelast_subset, Hx. }
    refine (updateRoute_visited _ _ _ _ _ _ E Hv1).
    intros σ1 [= <-]. apply visited_update, Hv1.
  - unfold set. cbn. intros E Hv.
    assert (Hv1 : visited_only (upd (set_routeStack []) σ)).
    { apply visited_history; [exact Hv|]. intros x Hx. inversion Hx. }
    destruct (strict_eq _ r).
    + injection E as _ <-. exact Hv1.
    + refine (updateRoute_visited _ _ _ _ _ _ E Hv1).
      intros σ1 [= <-]. apply visited_update, Hv1.
Qed.

Lemma step_visited fuel mapUrl ev σ σ' :
  step fuel mapUrl ev σ = Some σ' -> visited_only σ -> visited_only σ'.
Proof.
  destruct ev as [c|url|url|h|h|cl v]; cbn [step].
  - destruct (call fuel c σ) as [[out σ1]|] eqn:E; [|discriminate].
    cbn. intros [= <-]. exact (call_visited _ _ _ _ _ E).
  - destruct (setUrl mapUrl url σ) as [[o σ1]|] eqn:E; [|discriminate].
    cbn. intros [= <-]. apply updateUrl_store in E as [->|(r & out & E)].
    + auto.
    + exact (call_visited fuel (CallSet r) _ _ _ E).
  - destruct (pushUrl fuel mapUrl url σ) as [[o σ1]|] eqn:E; [|discriminate].
    cbn. intros [= <-]. apply updateUrl_store in E as [->|(r & out & E)].
    + auto.
    + exact (call_visited fuel (CallPush r) _ _ _ E).
  - intros [= <-] H. exact H.
  - intros [= <-] H. exact H.
  - rewrite vote_throws. cbn. intros [= <-]. auto.
Qed.

Lemma run_visited fuel mapUrl evs : forall σ σ',
  run fuel mapUrl evs σ = Some σ' -> visited_only σ -> visited_only σ'.
Proof.
  induction evs as [|ev evs IH]; intros σ σ'; cbn [run].
  - intros [= <-]. auto.
  - destruct (step fuel mapUrl ev σ) as [σ1|] eqn:E; [|discriminate].
    cbn. intros H Hv. exact (IH _ _ H (step_visited _ _ _ _ _ E Hv)).
Qed.

(** X15: the history holds visited routes only.  Whatever the clients of
    a new router do, every entry of its history, and so every route
    that [pop] can go back to, is a route that the router has fired, or
    the initial [undefined]; the same holds for the current route. *)
Theorem history_was_visited fuel mapUrl evs size σ' :
  run fuel mapUrl evs (newRouter size) = Some σ' ->
  (forall x, x ∈ routeStack (this σ') ->
             x = undefined \/ x ∈ fired (effect (this σ'))) /\
  (get (effect (this σ')) = undefined \/
   get (effect (this σ')) ∈ fired (effect (this σ'))).
Proof.
  intros H.
  assert (H0 : visited_only (newRouter size)).
  { split; [left; reflexivity|]. cbn. constructor. }
  destruct (run_visited _ _ _ _ _ H H0) as [Hg Hs].
  split; [|exact Hg]. intros x Hx. rewrite Forall_forall in Hs. exact (Hs x Hx).
Qed.

Lemma history_was_visited_witness :
  exists σ',
    run 1 (Some sample_mapper)
        [EvPushUrl (Some "/home"); EvCall (CallPush (route 4));
         EvCall (CallPush (route 5))]
        (newRouter 2)
    = Some σ' /\
    routeStack (this σ') = [route 1; route 4] /\
    forall x, x ∈ routeStack (this σ') ->
              x = undefined \/ x ∈ fired (effect (this σ')).
Proof.
  eexists. split; [reflexivity|]. split; [reflexivity|].
  apply (history_was_visited 1 (Some sample_mapper)
           [EvPushUrl (Some "/home"); EvCall (CallPush (route 4));
            EvCall (CallPush (route 5))] 2).
  reflexivity.
Defined.

(** ** Handlers that act before they return *)

Lemma invoke_escapes b cl h σ :
  invoke b cl h σ
  = Some (match escapes b with None => Normal | Some e => Throw e end, σ).
Proof. destruct b; reflexivity. Qed.

Lemma forEach_same_store body cl hs : forall σ c called σ',
  forEach body cl hs σ = Some (c, called, σ') -> σ' = σ.
Proof.
  induction hs as [|h hs IH]; intros σ c called σ'; cbn [forEach].
  - intros [= _ _ <-]. reflexivity.
  - rewrite invoke_escapes. cbn. destruct (escapes (body h)).
    + intros [= _ _ <-]. reflexivity.
    + destruct (forEach body cl hs σ) as [[[c' called'] σ2]|] eqn:E;
        [|discriminate].
      cbn. intros [= _ _ <-]. exact (IH _ _ _ _ E).
Qed.

Lemma forEach_returns body cl hs σ :
  exists c called, forEach body cl hs σ = Some (c, called, σ).
Proof.
  induction hs as [|h hs IH]; cbn [forEach]; [eauto|].
  rewrite invoke_escapes. cbn. destruct (escapes (body h)); [eauto|].
  destruct IH as (c & called & E). rewrite E. cbn. eauto.
Qed.

Lemma forEach_keeps body cl hs σ :
  (forall h, h ∈ hs -> body h = Keeps) ->
  forEach body cl hs σ = Some (Normal, hs, σ).
Proof.
  induction hs as [|h hs IH]; intros H; cbn [forEach]; [reflexivity|].
  rewrite (H h) by (apply elem_of_cons; auto). cbn.
  rewrite IH; [reflexivity|]. intros k Hk. apply H, elem_of_cons. auto.
Qed.

Lemma forEach_escapes body cl before h after e σ :
  (forall k, k ∈ before -> body k = Keeps) ->
  escapes (body h) = Some e ->
  forEach body cl (before ++ h :: after) σ = Some (Throw e, before ++ [h], σ).
Proof.
  intros Hb He. induction before as [|k before IH]; cbn [forEach app].
  - rewrite invoke_escapes, He. reflexivity.
  - rewrite (Hb k) by (apply elem_of_cons; auto). cbn.
    rewrite IH; [reflexivity|]. intros j Hj. apply Hb, elem_of_cons. auto.
Qed.

(** Rejecting the promise that was made last. *)
Lemma reject_last e (t : Router) a ps :
  reject (length ps) e (mkStore t a (ps ++ [Waiting]))
  = mkStore t a (ps ++ [Failed e]).
Proof.
  unfold reject, settle. cbn.
  rewrite lookup_app_r by lia. rewrite Nat.sub_diag. cbn.
  rewrite insert_app_r_alt by lia. rewrite Nat.sub_diag. reflexivity.
Qed.

(** The store that [updateRouteWith] hands to the handlers. *)
Lemma updateRouteWith_round body r op σ :
  currentTransition (this σ) = None ->
  registered σ <> [] ->
  exists c called,
    forEach body (mkClosure r op (length (promises σ))) (registered σ)
            (mkStore (set_currentTransition
                        (Some (ConfirmTransitions (this σ))) (this σ))
                     (arrays σ) (promises σ ++ [Waiting]))
    = Some (c, called,
            mkStore (set_currentTransition
                       (Some (ConfirmTransitions (this σ))) (this σ))
                    (arrays σ) (promises σ ++ [Waiting])) /\
    updateRouteWith body r op σ
    = Some (match c with
            | Normal => Voting (mkClosure r op (length (promises σ))) called
            | Throw e => Rejected e
            end,
            called,
            mkStore (set_currentTransition
                       (Some (ConfirmTransitions (this σ))) (this σ))
                    (arrays σ)
                    (promises σ
                     ++ [match c with Normal => Waiting | Throw e => Failed e end])).
Proof.
  intros Hc Hr. unfold updateRouteWith. rewrite Hc. unfold registered in *.
  destruct (deref σ (ConfirmTransitions (this σ))) as [|h hs] eqn:Hd;
    [congruence|].
  cbn [length Nat.eqb upd this arrays promises].
  destruct (forEach_returns body (mkClosure r op (length (promises σ))) (h :: hs)
              (mkStore (set_currentTransition
                          (Some (ConfirmTransitions (this σ))) (this σ))
                       (arrays σ) (promises σ ++ [Waiting])))
    as (c & called & E).
  exists c, called. split; [exact E|]. rewrite E. cbn.
  destruct c as [|e]; [reflexivity|]. rewrite reject_last. reflexivity.
Qed.

Lemma updateRouteWith_pending body r op σ l :
  currentTransition (this σ) = Some l ->
  updateRouteWith body r op σ = Some (Rejected in_progress, [], σ).
Proof. intros H. unfold updateRouteWith. rewrite H. reflexivity. Qed.

(** When every handler keeps the transition, [updateRouteWith] is
    [updateRoute]. *)
Lemma updateRouteWith_keeps r op σ :
  promised (updateRouteWith (fun _ => Keeps) r op σ) = updateRoute r op σ.
Proof.
  unfold updateRouteWith, updateRoute, promised.
  destruct (currentTransition (this σ)); [reflexivity|].
  destruct (length _ =? 0)%nat.
  - destruct (op r σ); reflexivity.
  - rewrite forEach_keeps by reflexivity. reflexivity.
Qed.

Lemma updateRouteWith_handlers body r op σ :
  currentTransition (this σ) = None ->
  registered σ <> [] ->
  exists out called σ',
    updateRouteWith body r op σ = Some (out, called, σ') /\
    this σ' = set_currentTransition (Some (ConfirmTransitions (this σ))) (this σ) /\
    arrays σ' = arrays σ /\
    (promises σ' = promises σ ++ [Waiting] \/
     exists e, promises σ' = promises σ ++ [Failed e]) /\
    ((forall h, h ∈ registered σ -> body h = Keeps) ->
       called = registered σ /\
       promises σ' = promises σ ++ [Waiting] /\
       out = Voting (mkClosure r op (length (promises σ))) (registered σ)) /\
    (forall before h after e,
       registered σ = before ++ h :: after ->
       (forall k, k ∈ before -> body k = Keeps) ->
       escapes (body h) = Some e ->
       called = before ++ [h] /\
       out = Rejected e /\
       promises σ' = promises σ ++ [Failed e]).
Proof.
  intros Hc Hr.
  destruct (updateRouteWith_round body r op σ Hc Hr) as (c & called & F & E).
  rewrite E. do 3 eexists. split; [reflexivity|]. cbn [this arrays promises].
  split; [reflexivity|]. split; [reflexivity|]. split; [|split].
  - destruct c; eauto.
  - intros Hk. rewrite forEach_keeps in F by exact Hk.
    injection F as <- <-. auto.
  - intros before h after e Hreg Hb He.
    rewrite Hreg, (forEach_escapes _ _ _ _ _ e) in F by assumption.
    injection F as <- <-. auto.
Qed.

(** X6: with handlers registered and no transition pending, every request
    that names another route than the current one marks the transition as
    started, with the array of registered handlers as its pending list,
    and calls the handlers in the order of registration with the
    requested route.  If they all keep the transition and return, each
    was called once and the promise of the round waits.  If one of them
    calls [confirm] or [cancel] in its own body, or throws, the handlers
    after it are not called and the request is rejected with the error
    that escaped (the type error, for a vote); the transition stays
    marked as started.  Nothing is fired in either case.  The history is
    already changed by [pop] (the last entry is gone) and by [set]
    (empty), and not by [push]. *)
Theorem request_runs_handlers body fuel c σ :
  currentTransition (this σ) = None ->
  registered σ <> [] ->
  names_current c σ = false ->
  exists out called σ',
    callWith body fuel c σ = Some (out, called, σ') /\
    currentTransition (this σ') = Some (ConfirmTransitions (this σ)) /\
    outstanding σ' = Some (registered σ) /\
    registered σ' = registered σ /\
    effect (this σ') = effect (this σ) /\
    routeStack (this σ') = history_at_request c σ /\
    ((forall h, h ∈ registered σ -> body h = Keeps) ->
       called = registered σ /\
       promises σ' = promises σ ++ [Waiting] /\
       exists cl,
         out = Voting cl (registered σ) /\
         cl_route cl = requested c σ /\
         cl_promise cl = length (promises σ)) /\
    (forall before h after e,
       registered σ = before ++ h :: after ->
       (forall k, k ∈ before -> body k = Keeps) ->
       escapes (body h) = Some e ->
       called = before ++ [h] /\
       out = Rejected e /\
       promises σ' = promises σ ++ [Failed e]).
Proof.
  intros Hc Hr Hn.
  assert (Hgen : forall r op s,
             exists out called σ',
               updateRouteWith body r op (upd (set_routeStack s) σ)
               = Some (out, called, σ') /\
               currentTransition (this σ') = Some (ConfirmTransitions (this σ)) /\
               outstanding σ' = Some (registered σ) /\
               registered σ' = registered σ /\
               effect (this σ') = effect (this σ) /\
               routeStack (this σ') = s /\
               ((forall h, h ∈ registered σ -> body h = Keeps) ->
                  called = registered σ /\
                  promises σ' = promises σ ++ [Waiting] /\
                  exists cl,
                    out = Voting cl (registered σ) /\
                    cl_route cl = r /\
                    cl_promise cl = length (promises σ)) /\
               (forall before h after e,
                  registered σ = before ++ h :: after ->
                  (forall k, k ∈ before -> body k = Keeps) ->
                  escapes (body h) = Some e ->
                  called = before ++ [h] /\
                  out = Rejected e /\
                  promises σ' = promises σ ++ [Failed e])).
  { intros r op s.
    destruct (updateRouteWith_handlers body r op (upd (set_routeStack s) σ)
                Hc Hr)
      as (out & called & σ' & E & Ht & Ha & _ & Hk & He).
    exists out, called, σ'. split; [exact E|].
    unfold outstanding, registered, deref in *. rewrite Ht, Ha. cbn.
    do 5 (split; [reflexivity|]). split; [|exact He].
    intros Hall. destruct (Hk Hall) as (H1 & H2 & H3).
    split; [exact H1|]. split; [exact H2|]. eexists. split; [exact H3|].
    split; reflexivity. }
  destruct c as [r| |r]; cbn [callWith names_current] in *.
  - unfold pushWith. rewrite Hn.
    destruct (updateRouteWith_handlers body r (push_op fuel) σ Hc Hr)
      as (out & called & σ' & E & Ht & Ha & _ & Hk & He).
    exists out, called, σ'. split; [exact E|].
    unfold outstanding, registered, deref in *. rewrite Ht, Ha. cbn.
    do 5 (split; [reflexivity|]). split; [|exact He].
    intros Hall. destruct (Hk Hall) as (H1 & H2 & H3).
    split; [exact H1|]. split; [exact H2|]. eexists. split; [exact H3|].
    split; reflexivity.
  - unfold popWith.
    destruct (Hgen (List.last (routeStack (this σ)) undefined) update_op
                (removelast (routeStack (this σ))))
      as (out & called & σ' & E & H).
    rewrite E. cbn. exists out, called, σ'. split; [reflexivity|exact H].
  - unfold setWith. cbn. rewrite Hn.
    destruct (Hgen r update_op []) as (out & called & σ' & E & H).
    exists out, called, σ'. split; [exact E|exact H].
Qed.

Lemma request_runs_handlers_witness :
  exists out called σ',
    callWith votes_at_once 1 (CallPush (route 1)) two_handlers
    = Some (out, called, σ') /\
    called = [0%nat] /\
    out = Rejected this_is_undefined /\
    promises σ' = [Failed this_is_undefined] /\
    currentTransition (this σ') = Some 2%nat.
Proof.
  destruct (request_runs_handlers votes_at_once 1 (CallPush (route 1))
              two_handlers eq_refl ltac:(discriminate) eq_refl)
    as (out & called & σ' & E & Hc & _ & _ & _ & _ & _ & He).
  destruct (He [] 0%nat [1%nat] this_is_undefined eq_refl
              ltac:(intros k Hk; inversion Hk) eq_refl)
    as (H1 & H2 & H3).
  exists out, called, σ'. repeat split; assumption.
Defined.

Lemma settle_this p s σ : this (settle p s σ) = this σ.
Proof.
  unfold settle. destruct (promises σ !! p) as [[]|]; reflexivity.
Qed.

(** X8: a second [push] of the same route right after the first changes
    nothing and calls no handler.  It resolves at once if the first push
    resolved (it committed, or the route was shown already); it is
    rejected with the error that a transition is in progress in every
    other case: the first push waits for votes, or was rejected because
    a handler threw, or was rejected as a transition was in progress. *)
Theorem second_push_follows_first body body' fuel r σ out called σ1 :
  pushWith body fuel r σ = Some (out, called, σ1) ->
  pushWith body' fuel r σ1
  = Some (match out with
          | Resolved => Resolved
          | _ => Rejected in_progress
          end, [], σ1).
Proof.
  intros H. unfold pushWith in H.
  destruct (strict_eq (get (effect (this σ))) r) eqn:E.
  - injection H as <- _ <-. unfold pushWith. rewrite E. reflexivity.
  - unfold updateRouteWith in H.
    destruct (currentTransition (this σ)) as [l|] eqn:Hc.
    + injection H as <- _ <-. unfold pushWith. rewrite E.
      apply (updateRouteWith_pending _ _ _ _ l Hc).
    + destruct (length _ =? 0)%nat.
      * unfold push_op in H.
        destruct (shift_while fuel _ _) as [kept|]; [|discriminate].
        cbn in H. injection H as <- _ <-. unfold pushWith, strict_eq. cbn.
        rewrite bool_decide_eq_true_2 by reflexivity. reflexivity.
      * destruct (forEach body _ _ _) as [[[c called'] σ3]|] eqn:F;
          [|discriminate].
        apply forEach_same_store in F. subst σ3. cbn in H.
        destruct c as [|e]; injection H as <- _ <-; unfold pushWith.
        -- cbn. rewrite E. reflexivity.
        -- unfold reject. rewrite settle_this. cbn [this effect set_currentTransition].
           rewrite E.
           apply (updateRouteWith_pending _ _ _ _ (ConfirmTransitions (this σ))).
           rewrite settle_this. reflexivity.
Qed.

Lemma second_push_follows_first_witness :
  exists σ1,
    pushWith votes_at_once 1 (route 1) two_handlers
    = Some (Rejected this_is_undefined, [0%nat], σ1) /\
    pushWith votes_at_once 1 (route 1) σ1
    = Some (Rejected in_progress, [], σ1).
Proof.
  eexists. split; [reflexivity|].
  apply (second_push_follows_first votes_at_once votes_at_once 1 (route 1)
           two_handlers (Rejected this_is_undefined) [0%nat]).
  reflexivity.
Defined.

(** ** One voting round in the life of a router *)

Lemma updateRouteWith_shape body r op σ out called σ' :
  keeps_round op ->
  updateRouteWith body r op σ = Some (out, called, σ') ->
  arrays σ' = arrays σ /\
  ConfirmTransitions (this σ') = ConfirmTransitions (this σ) /\
  (same_round σ σ' \/ round_started σ σ').
Proof.
  intros Hop H.
  destruct (currentTransition (this σ)) as [l|] eqn:Hc.
  - rewrite (updateRouteWith_pending _ _ _ _ l Hc) in H.
    injection H as _ _ <-. repeat split. left. apply same_round_refl.
  - destruct (registered σ) as [|h hs] eqn:Hr.
    + unfold updateRouteWith in H. rewrite Hc in H.
      unfold registered in Hr. rewrite Hr in H. cbn in H.
      destruct (op r σ) as [σ1|] eqn:E; [|discriminate]. cbn in H.
      injection H as _ _ <-. destruct (Hop _ _ _ E) as (Ha & Hp & Hl & Hc' & _).
      repeat split; try assumption. left. split; congruence.
    + destruct (updateRouteWith_handlers body r op σ Hc)
        as (out0 & called0 & σ0 & E & Ht & Ha & Hp & _);
        [rewrite Hr; discriminate|].
      rewrite E in H. injection H as _ _ <-.
      split; [exact Ha|]. rewrite Ht. split; [reflexivity|]. right.
      unfold round_started. rewrite Ht, Hr. cbn.
      repeat split; try assumption. discriminate.
Qed.

Lemma callWith_shape body fuel c σ out called σ' :
  callWith body fuel c σ = Some (out, called, σ') ->
  arrays σ' = arrays σ /\
  ConfirmTransitions (this σ') = ConfirmTransitions (this σ) /\
  (same_round σ σ' \/ round_started σ σ').
Proof.
  destruct c as [r| |r]; cbn [callWith].
  - unfold pushWith. destruct (strict_eq _ r).
    + intros [= _ _ <-]. repeat split. left. apply same_round_refl.
    + apply updateRouteWith_shape, push_op_keeps.
  - unfold popWith.
    destruct (updateRouteWith body _ update_op _) as [[[out0 called0] σ2]|] eqn:E;
      [|discriminate].
    cbn. intros [= _ _ <-].
    exact (updateRouteWith_shape _ _ _ _ _ _ _ update_op_keeps E).
  - unfold setWith. cbn. destruct (strict_eq _ r).
    + intros [= _ _ <-]. repeat split. left. split; reflexivity.
    + intros E. exact (updateRouteWith_shape _ _ _ _ _ _ _ update_op_keeps E).
Qed.

Lemma promised_Some x out σ' :
  promised x = Some (out, σ') -> exists called, x = Some (out, called, σ').
Proof.
  destruct x as [[[o c] s]|]; cbn; [|discriminate]. intros [= <- <-]. eauto.
Qed.

Lemma stepWith_shape body fuel mapUrl ev σ σ' :
  stepWith body fuel mapUrl ev σ = Some σ' ->
  well_formed σ ->
  well_formed σ' /\
  (exists extra, arrays σ' = arrays σ ++ extra) /\
  (same_round σ σ' \/ round_started σ σ').
Proof.
  assert (Hcall : forall c out called,
             callWith body fuel c σ = Some (out, called, σ') ->
             well_formed σ ->
             well_formed σ' /\
             (exists extra, arrays σ' = arrays σ ++ extra) /\
             (same_round σ σ' \/ round_started σ σ')).
  { intros c out called E [Hl Hc].
    destruct (callWith_shape _ _ _ _ _ _ _ E) as (Ha & Hct & Hr).
    split; [|split; [exists []; rewrite Ha; symmetry; apply app_nil_r|exact Hr]].
    unfold well_formed. rewrite Ha, Hct.
    split; [exact Hl|]. intros l.
    destruct Hr as [[Hc' _]|(_ & _ & Hc' & _)]; rewrite Hc'.
    - apply Hc.
    - intros [= <-]. exact Hl. }
  assert (Hsame : well_formed σ ->
                  well_formed σ /\
                  (exists extra, arrays σ = arrays σ ++ extra) /\
                  (same_round σ σ \/ round_started σ σ)).
  { intros Hwf. split; [exact Hwf|].
    split; [exists []; symmetry; apply app_nil_r|]. left. apply same_round_refl. }
  destruct ev as [c|url|url|h|h|cl v]; cbn [stepWith].
  - destruct (callWith body fuel c σ) as [[[out called] σ1]|] eqn:E;
      [|discriminate].
    cbn. intros [= <-]. eauto.
  - destruct (updateUrl mapUrl url _ σ) as [[o σ1]|] eqn:E; [|discriminate].
    cbn. intros [= <-]. apply updateUrl_store in E as [->|(r & out & E)].
    + exact Hsame.
    + apply promised_Some in E as [called E].
      exact (Hcall (CallSet r) out called E).
  - destruct (updateUrl mapUrl url _ σ) as [[o σ1]|] eqn:E; [|discriminate].
    cbn. intros [= <-]. apply updateUrl_store in E as [->|(r & out & E)].
    + exact Hsame.
    + apply promised_Some in E as [called E].
      exact (Hcall (CallPush r) out called E).
  - intros [= <-] [Hl Hc].
    split; [|split; [eexists; reflexivity|left; split; reflexivity]].
    unfold well_formed. cbn. rewrite length_app. cbn.
    split; [lia|]. intros l Hl'. specialize (Hc l Hl'). lia.
  - intros [= <-] [Hl Hc].
    split; [|split; [eexists; reflexivity|left; split; reflexivity]].
    unfold well_formed. cbn. rewrite length_app. cbn.
    split; [lia|]. intros l Hl'. specialize (Hc l Hl'). lia.
  - rewrite vote_throws. cbn. intros [= <-]. exact Hsame.
Qed.

Lemma stepWith_one_round body fuel mapUrl ev σ σ' :
  stepWith body fuel mapUrl ev σ = Some σ' ->
  well_formed σ -> one_round σ ->
  well_formed σ' /\ one_round σ'.
Proof.
  intros E Hwf Hinv.
  destruct (stepWith_shape _ _ _ _ _ _ E Hwf) as (Hwf' & [x Hx] & Hr).
  split; [exact Hwf'|].
  destruct Hinv as [[Hc Hp]|(l & Hc & Hp & Hd)].
  - destruct Hr as [[Hc' Hp']|(_ & Hreg & Hc' & Hp' & Ha)].
    + left. split; congruence.
    + right. exists (ConfirmTransitions (this σ)).
      split; [exact Hc'|]. rewrite Hp in Hp'. split; [exact Hp'|].
      unfold deref. rewrite Ha. exact Hreg.
  - destruct Hr as [[Hc' Hp']|(Hnone & _)]; [|congruence].
    right. exists l. split; [congruence|]. split; [rewrite Hp'; exact Hp|].
    unfold deref in *. rewrite Hx, lookup_app_l by exact (proj2 Hwf l Hc).
    exact Hd.
Qed.

Lemma runWith_one_round fuel mapUrl evs : forall σ σ',
  runWith fuel mapUrl evs σ = Some σ' ->
  well_formed σ -> one_round σ ->
  well_formed σ' /\ one_round σ'.
Proof.
  induction evs as [|[body ev] evs IH]; intros σ σ'; cbn [runWith].
  - intros [= <-]. auto.
  - destruct (stepWith body fuel mapUrl ev σ) as [σ1|] eqn:E; [|discriminate].
    cbn. intros H Hwf Hinv.
    destruct (stepWith_one_round _ _ _ _ _ _ E Hwf Hinv) as [Hwf1 Hinv1].
    exact (IH _ _ H Hwf1 Hinv1).
Qed.

(** X11: in the whole life of a router, whatever its clients do and
    whatever its handlers do when they are called, at most one voting
    round is started.  Either no transition is pending and no promise of
    a round exists, or one transition is pending, at least one handler
    is outstanding, and the promise of the round is the only one: it
    waits, or it was rejected because a handler threw when it was
    called.  No promise of a round is ever fulfilled. *)
Theorem one_round_in_any_life fuel mapUrl evs size σ' :
  runWith fuel mapUrl evs (newRouter size) = Some σ' ->
  one_round σ' /\
  (length (promises σ') <= 1)%nat /\
  (currentTransition (this σ') = None <-> promises σ' = []) /\
  (forall p, p ∈ promises σ' -> p = Waiting \/ exists e, p = Failed e).
Proof.
  intros H.
  destruct (runWith_one_round _ _ _ _ _ H (newRouter_well_formed size))
    as [_ Hinv]; [left; split; reflexivity|].
  split; [exact Hinv|].
  destruct Hinv as [[Hc Hp]|(l & Hc & [Hp|[e Hp]] & _)]; rewrite Hc, Hp.
  - split; [cbn; lia|]. split; [tauto|]. intros p Hin. inversion Hin.
  - split; [cbn; lia|]. split; [split; discriminate|].
    intros p Hin. apply list_elem_of_singleton in Hin. auto.
  - split; [cbn; lia|]. split; [split; discriminate|].
    intros p Hin. apply list_elem_of_singleton in Hin. eauto.
Qed.

Lemma one_round_in_any_life_witness :
  exists σ',
    runWith 1 None
      [(votes_at_once, EvCall (CallPush (route 1)));
       (votes_at_once, EvRegister 0%nat);
       (votes_at_once, EvCall (CallPush (route 2)));
       (votes_at_once, EvUnregister 0%nat);
       (votes_at_once, EvCall (CallSet (route 3)))]
      (newRouter 32)
    = Some σ' /\
    promises σ' = [Failed this_is_undefined] /\
    get (effect (this σ')) = route 1 /\
    (length (promises σ') <= 1)%nat.
Proof.
  eexists. split; [reflexivity|]. split; [reflexivity|]. split; [reflexivity|].
  apply (one_round_in_any_life 1 None
           [(votes_at_once, EvCall (CallPush (route 1)));
            (votes_at_once, EvRegister 0%nat);
            (votes_at_once, EvCall (CallPush (route 2)));
            (votes_at_once, EvUnregister 0%nat);
            (votes_at_once, EvCall (CallSet (route 3)))]
           32).
  reflexivity.
Defined.
